(** * trn_model_gen: from boolean gene rules to a coefficient matrix

    A shallow embedding of [trn_model_gen.py].  The script reads one rule
    per line, hands each rule to an external expression parser, scrapes
    the linear equations the parser prints, and emits a tab separated
    matrix with one row per variable and one column per equation, to
    which it appends the synthesized [EX_] and [AV_] columns.

    Conventions of the embedding.
    - A Python [str] is a Rocq [string]; a character is a code point
      below 256, so whitespace, digits and line boundaries are Python's
      Unicode classes restricted to that range.
    - A [dict] is a [gmap], a [set] is a [gset].  Iterating over a Python
      set of strings visits its elements in an order that depends on the
      hash seed of the run; that order is the parameter [iter_order].
    - The external parser is the parameter [exec], from the argument
      vector to the completed process.  The rules file is the list of
      lines that iterating over the open file yields.
    - The two regular expressions are terms of a small pattern language
      run by a backtracking matcher of the same search order as [re].
    - [print] appends one entry (the text, without the final newline) to
      the stream it writes to.
    - The embedding follows the runs in which the interpreter and the
      operating system raise no error of their own.  [int] and [str] are
      taken without the interpreter's limit on the number of digits
      (4300 by default from Python 3.11 on, beyond which both raise
      [ValueError]); a rules file that exists is taken to open and to
      decode; [subprocess.run] is taken to start the parser and to come
      back.  Statements that start from the surroundings of a run
      describe it under these assumptions; statements that start from a
      run that has returned hold without them. *)

From Stdlib Require Import Ascii String ZArith.
From stdpp Require Import gmap strings list sorting pretty.

#[local] Set Warnings "-clear-no-such-hyp".
Local Open Scope Z_scope.

(** ** Python's string built-ins *)

Module Py.

Definition code (c : ascii) : N := N_of_ascii c.

(** [str.isspace] on one character, which is also the class [\s]. *)
Definition isspace (c : ascii) : bool :=
  let n := code c in
  ((9 <=? n) && (n <=? 13) || (28 <=? n) && (n <=? 32)
   || (n =? 133) || (n =? 160))%N.

(** The class [\d]. *)
Definition isdigit (c : ascii) : bool :=
  let n := code c in ((48 <=? n) && (n <=? 57))%N.

(** The line boundaries of [str.splitlines]. *)
Definition islinebreak (c : ascii) : bool :=
  let n := code c in
  ((10 <=? n) && (n <=? 13) || (28 <=? n) && (n <=? 30) || (n =? 133))%N.

Definition nonspace (c : ascii) : bool := negb (isspace c).

Definition CR : ascii := ascii_of_N 13.
Definition LF : ascii := ascii_of_N 10.
Definition TAB : ascii := ascii_of_N 9.

(** Longest prefix of characters in a class, and what follows it. *)
Fixpoint span (p : ascii → bool) (s : string) : string * string :=
  match s with
  | EmptyString => (EmptyString, EmptyString)
  | String c s' =>
      if p c then let '(a, b) := span p s' in (String c a, b)
      else (EmptyString, s)
  end.

Fixpoint lstrip_by (p : ascii → bool) (s : string) : string :=
  match s with
  | EmptyString => EmptyString
  | String c s' => if p c then lstrip_by p s' else s
  end.

Fixpoint rstrip_by (p : ascii → bool) (s : string) : string :=
  match s with
  | EmptyString => EmptyString
  | String c s' =>
      match rstrip_by p s' with
      | EmptyString => if p c then EmptyString else String c EmptyString
      | r => String c r
      end
  end.

(** [s.strip()], [s.rstrip()] and [s.rstrip(chars)]. *)
Definition rstrip (s : string) : string := rstrip_by isspace s.
Definition strip (s : string) : string := rstrip_by isspace (lstrip_by isspace s).

Fixpoint mem_char (c : ascii) (chars : string) : bool :=
  match chars with
  | EmptyString => false
  | String d chars' => if decide (c = d) then true else mem_char c chars'
  end.

Definition rstrip_chars (chars s : string) : string :=
  rstrip_by (λ c, mem_char c chars) s.

(** [s.startswith(p)] *)
Fixpoint startswith (s p : string) : bool :=
  match p, s with
  | EmptyString, _ => true
  | String _ _, EmptyString => false
  | String a p', String b s' => if decide (a = b) then startswith s' p' else false
  end.

(** [s.endswith(p)] *)
Fixpoint endswith (s p : string) : bool :=
  if decide (s = p) then true
  else match s with
       | EmptyString => false
       | String _ s' => endswith s' p
       end.

(** The slices [s[n:]] and [s[:-n]]. *)
Fixpoint slice_from (n : nat) (s : string) : string :=
  match n, s with
  | O, _ => s
  | S _, EmptyString => EmptyString
  | S n', String _ s' => slice_from n' s'
  end.

Fixpoint slice_to (n : nat) (s : string) : string :=
  match n, s with
  | O, _ => EmptyString
  | S _, EmptyString => EmptyString
  | S n', String c s' => String c (slice_to n' s')
  end.

Definition slice_drop_last (n : nat) (s : string) : string :=
  slice_to (String.length s - n) s.

(** [c in s] for a one character string [c]. *)
Definition contains (c : ascii) (s : string) : bool := mem_char c s.

(** [s.split(c, 1)]: at most one split, at the first occurrence. *)
Fixpoint split1 (c : ascii) (s : string) : list string :=
  match s with
  | EmptyString => [EmptyString]
  | String d s' =>
      if decide (d = c) then [EmptyString; s']
      else match split1 c s' with
           | h :: t => String d h :: t
           | [] => [String d EmptyString]
           end
  end.

Definition cons_char (c : ascii) (ls : list string) : list string :=
  match ls with
  | [] => [String c EmptyString]
  | l :: ls' => String c l :: ls'
  end.

(** [s.splitlines()]: a carriage return followed by a line feed is one
    boundary, and a final boundary opens no further line. *)
Fixpoint splitlines (s : string) : list string :=
  match s with
  | EmptyString => []
  | String c s' =>
      if islinebreak c then
        EmptyString ::
          (match s' with
           | String d s'' =>
               if decide (c = CR) then
                 if decide (d = LF) then splitlines s'' else splitlines s'
               else splitlines s'
           | EmptyString => []
           end)
      else cons_char c (splitlines s')
  end.

(** [sep.join(parts)] *)
Fixpoint join (sep : string) (parts : list string) : string :=
  match parts with
  | [] => EmptyString
  | [x] => x
  | x :: rest => x +:+ sep +:+ join sep rest
  end.

(** [str(n)] for an integer.  The interpreter's limit on the number of
    digits is left out: [str] raises there on a number of more digits,
    and prints it here. *)
Definition str_int (n : Z) : string := pretty n.

Definition digit_val (c : ascii) : Z := Z.of_N (code c) - 48.

Fixpoint digits_val (acc : Z) (s : string) : option Z :=
  match s with
  | EmptyString => Some acc
  | String c s' =>
      if isdigit c then digits_val (10 * acc + digit_val c) s' else None
  end.

(** [int(s)] on an optional sign followed by decimal digits; [None]
    stands for the [ValueError] raised on any other text.  The
    interpreter's limit on the number of digits is left out: [int]
    raises there on more digits than the limit, and converts them
    here. *)
Definition int (s : string) : option Z :=
  match s with
  | EmptyString => None
  | String c s' =>
      if decide (c = "+"%char) then
        match s' with EmptyString => None | _ => digits_val 0 s' end
      else if decide (c = "-"%char) then
        match s' with EmptyString => None | _ => Z.opp <$> digits_val 0 s' end
      else digits_val 0 s
  end.

End Py.

(** ** Regular expressions *)

Module Re.

(** The part of the pattern language that the script uses.  A repetition
    is always over one character class. *)
Inductive regex :=
  | Eps
  | Bos
  | Eos
  | Cls (p : ascii → bool)
  | Many (p : ascii → bool)
  | Opt (r : regex)
  | Seq (r1 r2 : regex)
  | Group (n : nat) (r : regex).

(** [p+] and a sequence of items. *)
Definition plus (p : ascii → bool) : regex := Seq (Cls p) (Many p).
Definition seqs (rs : list regex) : regex := foldr Seq Eps rs.

(** The classes [\s], [\S], [\d], [.], [[+-]] and [[^\s:]]. *)
Definition space : ascii → bool := Py.isspace.
Definition nonspace : ascii → bool := Py.nonspace.
Definition digit : ascii → bool := Py.isdigit.
Definition dot (c : ascii) : bool := negb (bool_decide (c = Py.LF)).
Definition one_of (chars : string) (c : ascii) : bool := Py.mem_char c chars.
Definition nonspace_none_of (chars : string) (c : ascii) : bool :=
  negb (Py.isspace c) && negb (Py.mem_char c chars).

(** The text between two positions, each given by what is left of the
    subject. *)
Definition consumed (s s' : string) : string :=
  Py.slice_to (String.length s - String.length s') s.

Section Engine.

Context {R : Type}.

(** The whole subject, which [^] and nothing else looks at. *)
Variable whole : string.

(** [p*] followed by [k]: the longest run first, then one character
    less at a time until what follows matches. *)
Fixpoint many (p : ascii → bool) (s : string) (k : string → option R) : option R :=
  match s with
  | String a s' =>
      if p a then
        match many p s' k with
        | Some x => Some x
        | None => k s
        end
      else k s
  | EmptyString => k s
  end.

(** The backtracking matcher: [run r s g k] matches [r] at the front of
    [s] with the groups [g] set so far and hands what is left, and the
    groups, to the continuation; the first way that lets the
    continuation succeed is the result. *)
Fixpoint run (r : regex) (s : string) (g : gmap nat string)
    (k : string → gmap nat string → option R) : option R :=
  match r with
  | Eps => k s g
  | Bos => if decide (String.length s = String.length whole) then k s g else None
  | Eos =>
      if decide (s = EmptyString ∨ s = String Py.LF EmptyString) then k s g else None
  | Cls p =>
      match s with
      | String a s' => if p a then k s' g else None
      | EmptyString => None
      end
  | Many p => many p s (λ s', k s' g)
  | Opt r' =>
      match run r' s g k with
      | Some x => Some x
      | None => k s g
      end
  | Seq r1 r2 => run r1 s g (λ s1 g1, run r2 s1 g1 k)
  | Group n r' => run r' s g (λ s1 g1, k s1 (<[n := consumed s s1]> g1))
  end.

End Engine.

(** [pattern.match(s)] and [m.group(n)]. *)
Definition match_ (r : regex) (s : string) : option (gmap nat string) :=
  run s r s ∅ (λ _ g, Some g).

Definition group (m : gmap nat string) (n : nat) : string := default "" (m !! n).

(** One attempt of a pattern with two groups at a position: the groups
    and the number of characters matched. *)
Definition pair_at (whole : string) (r : regex) (s : string)
    : option (string * string * nat) :=
  run whole r s ∅
    (λ s' g, Some (group g 1, group g 2, (String.length s - String.length s')%nat)).

(** [re.findall] for a pattern with two groups that matches no empty
    text: scan left to right; after a match the scan resumes just behind
    it, otherwise one character further.  [skip] counts the characters
    of the last match that are still to be passed. *)
Fixpoint findall_from (whole : string) (r : regex) (skip : nat) (s : string)
    : list (string * string) :=
  match s with
  | EmptyString => []
  | String _ s' =>
      match skip with
      | S k => findall_from whole r k s'
      | O =>
          match pair_at whole r s with
          | Some (g1, g2, len) => (g1, g2) :: findall_from whole r (Nat.pred len) s'
          | None => findall_from whole r O s'
          end
      end
  end.

Definition findall (r : regex) (s : string) : list (string * string) :=
  findall_from s r O s.

End Re.

(** ** The script *)

(** What [subprocess.run] hands back with [capture_output] and [text]. *)
Record CompletedProcess := {
  returncode : Z;
  stdout : string;
  stderr : string;
}.

(** The tables the script fills: the columns in the order they were
    appended, the variables in first-seen order, and their index. *)
Record tables := {
  columns : list (string * gmap string Z);
  all_vars : list string;
  var_index : gmap string nat;
}.

(** How a run ends: with an exit code, or with an exception nobody
    catches. *)
Inductive status :=
  | Exit (code : Z)
  | Uncaught.

(** Everything a run does that can be seen from outside. *)
Record run := {
  run_status : status;
  run_out : list string;
  run_err : list string;
  run_calls : list (list string);
}.

(** The files and the program the script finds around it.
    [parser_exists] is what [exists()] answers for the parser;
    [rules_file] is [None] when [exists()] answers no for the rules
    file, and the lines read from it otherwise.  A path that exists and
    cannot be opened or decoded, where [open] or the iteration raises,
    has no counterpart here. *)
Record env := {
  parser_path : string;
  parser_exists : bool;
  rules_path : string;
  rules_file : option (list string);
  exec : list string → CompletedProcess;
}.

(** How the loop over the rules ends: it passes every line, or [main]
    returns from inside it, or [int] raises. *)
Inductive outcome :=
  | Done (st : tables)
  | Returned (code : Z) (msg : string)
  | Raised.

Definition NL : string := String Py.LF EmptyString.
Definition TABs : string := String Py.TAB EmptyString.
Definition CRs : string := String Py.CR EmptyString.

Definition empty_tables : tables :=
  {| columns := []; all_vars := []; var_index := ∅ |}.

(** Lines 66 to 69. *)
Definition add_var (name : string) (st : tables) : tables :=
  match var_index st !! name with
  | None =>
      {| columns := columns st;
         all_vars := all_vars st ++ [name];
         var_index := <[name := length (all_vars st)]> (var_index st) |}
  | Some _ => st
  end.

(** [columns.append(c)] *)
Definition append_column (c : string * gmap string Z) (st : tables) : tables :=
  {| columns := columns st ++ [c];
     all_vars := all_vars st;
     var_index := var_index st |}.

(** [mapping.get(var, 0)] *)
Definition get0 (mapping : gmap string Z) (var : string) : Z :=
  default 0 (mapping !! var).

(** Lines 78 to 81: the first colon becomes a space. *)
Definition rewrite_label (line : string) : string :=
  if Py.contains ":" line then
    match Py.split1 ":" line with
    | [head; tail] => Py.strip head +:+ " " +:+ Py.strip tail
    | _ => line
    end
  else line.

(** Line 74. *)
Definition clean_line (raw : string) : string :=
  Py.rstrip_chars CRs (Py.strip raw).

(** Line 75. *)
Definition skipped (line : string) : bool :=
  bool_decide (line = "") || Py.startswith line "#".

(** Lines 85 to 88. *)
Definition failure_msg (rc : Z) (idx : nat) (line err : string) : string :=
  "Parser failed (exit " +:+ Py.str_int rc +:+ ") for line "
    +:+ pretty idx +:+ ": " +:+ line +:+ NL +:+ "STDERR:" +:+ NL +:+ err.

(** Line 71: [^([^\s:]+):\s+(.*\S)\s*$]. *)
Definition label_line_re : Re.regex :=
  Re.seqs [Re.Bos;
           Re.Group 1 (Re.plus (Re.nonspace_none_of ":"));
           Re.Cls (Re.one_of ":");
           Re.plus Re.space;
           Re.Group 2 (Re.seqs [Re.Many Re.dot; Re.Cls Re.nonspace]);
           Re.Many Re.space;
           Re.Eos].

(** Line 105: [([+-]?\d+)\s+(\S+)]. *)
Definition pair_re : Re.regex :=
  Re.seqs [Re.Group 1 (Re.seqs [Re.Opt (Re.Cls (Re.one_of "+-")); Re.plus Re.digit]);
           Re.plus Re.space;
           Re.Group 2 (Re.plus Re.nonspace)].

(** Lines 108 to 112. *)
Fixpoint pairs_loop (pairs : list (string * string))
    (mapping : gmap string Z) (st : tables) : option (gmap string Z * tables) :=
  match pairs with
  | [] => Some (mapping, st)
  | (coeff_str, var) :: rest =>
      match Py.int coeff_str with
      | None => None
      | Some coeff =>
          pairs_loop rest (<[var := get0 mapping var + coeff]> mapping) (add_var var st)
      end
  end.

(** Lines 93 to 113, the loop over the lines of the parser's output. *)
Fixpoint scan_lines (lines : list string) (capturing : bool) (st : tables)
    : option tables :=
  match lines with
  | [] => Some st
  | out_line :: rest =>
      let s := Py.strip out_line in
      if decide (s = "PRINTING RULES:") then scan_lines rest true st
      else if negb capturing then scan_lines rest capturing st
      else
        match Re.match_ label_line_re s with
        | None => scan_lines rest capturing st
        | Some m =>
            let label := Re.group m 1 in
            let eq := Re.group m 2 in
            match Re.findall pair_re eq with
            | [] => scan_lines rest capturing st
            | pairs =>
                match pairs_loop pairs ∅ st with
                | None => None
                | Some (mapping, st') =>
                    scan_lines rest capturing (append_column (label, mapping) st')
                end
            end
        end
  end.

(** Lines 118 to 128. *)
Definition protein_base (v : string) : option string :=
  if Py.endswith v "_AC" then None
  else if Py.startswith v "NOT_pr_" then Some (Py.slice_from (String.length "NOT_pr_") v)
  else if Py.startswith v "pr_" then Some (Py.slice_from (String.length "pr_") v)
  else if Py.startswith v "NOT_" then Some (Py.slice_from (String.length "NOT_") v)
  else None.

(** [if b:] on a value that is [None] or a string. *)
Definition truthy (b : option string) : bool :=
  match b with
  | Some (String _ _) => true
  | _ => false
  end.

(** Lines 130 to 134. *)
Definition collect_bases (vars : list string) : gset string :=
  foldl (λ bases v,
           match protein_base v with
           | Some b => if truthy (Some b) then bases ∪ {[b]} else bases
           | None => bases
           end) ∅ vars.

(** Lines 138 to 141, the body of the loop. *)
Definition ensure_rows (st : tables) (b : string) : tables :=
  let st1 :=
    match var_index st !! ("pr_" +:+ b) with
    | None => add_var ("pr_" +:+ b) st
    | Some _ => st
    end in
  match var_index st1 !! ("NOT_pr_" +:+ b) with
  | None => add_var ("NOT_pr_" +:+ b) st1
  | Some _ => st1
  end.

(** Lines 146 to 154: gene bases and protein bases, in one pass. *)
Definition classify (vars : list string) : gset string * gset string :=
  foldl (λ '(gene_bases, protein_bases) v,
           if Py.endswith v "_AC" then
             (gene_bases ∪ {[Py.slice_drop_last 3 v]}, protein_bases)
           else
             match protein_base v with
             | Some b =>
                 if truthy (Some b) then (gene_bases, protein_bases ∪ {[b]})
                 else (gene_bases, protein_bases)
             | None => (gene_bases, protein_bases)
             end) (∅, ∅) vars.

(** Lines 158 to 160, the body of the loop. *)
Definition ex_step (st : tables) (g : string) : tables :=
  let ac_row := g +:+ "_AC" in
  match var_index st !! ac_row with
  | Some _ => append_column ("EX_" +:+ g, {[ac_row := -1]}) st
  | None => st
  end.

(** Lines 164 to 169, the body of the loop. *)
Definition av_mapping (st : tables) (b : string) : gmap string Z :=
  foldl (λ mapping candidate,
           match var_index st !! candidate with
           | Some _ => <[candidate := 1]> mapping
           | None => mapping
           end) ∅ ["pr_" +:+ b; "NOT_pr_" +:+ b; "NOT_" +:+ b].

Definition av_step (st : tables) (b : string) : tables :=
  let mapping := av_mapping st b in
  if decide (mapping = ∅) then st
  else append_column ("AV_" +:+ b, mapping) st.

(** [sorted] on strings: ascending by code points. *)
Definition sorted (l : list string) : list string := merge_sort String.le l.

(** Lines 172 to 177. *)
Definition header_line (cols : list (string * gmap string Z)) : string :=
  "variable" +:+ TABs +:+ Py.join TABs (fst <$> cols).

Definition row_line (cols : list (string * gmap string Z)) (var : string) : string :=
  Py.join TABs (var :: ((λ c, Py.str_int (get0 (snd c) var)) <$> cols)).

Definition emit (st : tables) : list string :=
  header_line (columns st) :: (row_line (columns st) <$> sorted (all_vars st)).

Section Script.

(** The order in which a run iterates over a set. *)
Variable iter_order : gset string → list string.
Variable E : env.

(** Lines 8 to 15: the argument vector and what the process gives back.
    A call that does not come back with a completed process (the parser
    cannot be started, or the rule holds a NUL) raises in the script and
    has no counterpart here. *)
Definition run_parser (rule : string) : list string * CompletedProcess :=
  let argv := [parser_path E; "--rule"; rule] in (argv, exec E argv).

(** Lines 73 to 113, the loop over the lines of the rules file. *)
Fixpoint rules_loop (idx : nat) (raws : list string) (st : tables)
    (calls : list (list string)) : list (list string) * outcome :=
  match raws with
  | [] => (calls, Done st)
  | raw :: raws' =>
      let line := clean_line raw in
      if skipped line then rules_loop (S idx) raws' st calls
      else
        let line := rewrite_label line in
        let '(argv, proc) := run_parser line in
        let calls := calls ++ [argv] in
        if decide (returncode proc ≠ 0) then
          (calls, Returned (returncode proc)
                    (failure_msg (returncode proc) idx line (stderr proc)))
        else
          match scan_lines (Py.splitlines (stdout proc)) false st with
          | Some st' => rules_loop (S idx) raws' st' calls
          | None => (calls, Raised)
          end
  end.

Definition sorted_set (s : gset string) : list string := sorted (iter_order s).

(** Lines 130 to 141. *)
Definition normalize (st : tables) : tables :=
  foldl ensure_rows st (sorted_set (collect_bases (all_vars st))).

(** Lines 146 to 169. *)
Definition add_ex (st : tables) : tables :=
  foldl ex_step st (sorted_set (classify (all_vars st)).1).

Definition add_av (protein_bases : gset string) (st : tables) : tables :=
  foldl av_step st (sorted_set protein_bases).

Definition synthesize (st : tables) : tables :=
  add_av (classify (all_vars st)).2 (add_ex st).

(** Everything after the rules loop: lines 115 to 179. *)
Definition finish (st : tables) : tables := synthesize (normalize st).

(** Lines 43 to 179.  The traceback of an uncaught exception is not
    part of what is recorded. *)
Definition main : run :=
  if negb (parser_exists E) then
    {| run_status := Exit 2; run_out := [];
       run_err := ["Error: parser not found at " +:+ parser_path E];
       run_calls := [] |}
  else
    match rules_file E with
    | None =>
        {| run_status := Exit 2; run_out := [];
           run_err := ["Error: input file not found: " +:+ rules_path E];
           run_calls := [] |}
    | Some raws =>
        match rules_loop 1 raws empty_tables [] with
        | (calls, Done st) =>
            {| run_status := Exit 0; run_out := emit (finish st);
               run_err := []; run_calls := calls |}
        | (calls, Returned code msg) =>
            {| run_status := Exit code; run_out := [];
               run_err := [msg]; run_calls := calls |}
        | (calls, Raised) =>
            {| run_status := Uncaught; run_out := [];
               run_err := []; run_calls := calls |}
        end
    end.

End Script.

(** ** The vocabulary of the statements *)

(** The protein base in the words of the description: a suffix test
    first, then the three prefixes in a fixed order. *)
Definition has_prefix (s p : string) : Prop := ∃ r, s = p +:+ r.
Definition has_suffix (s p : string) : Prop := ∃ q, s = q +:+ p.

Inductive base_rule (v : string) : option string → Prop :=
  | base_gene_activity :
      has_suffix v "_AC" → base_rule v None
  | base_not_pr r :
      ¬ has_suffix v "_AC" → v = "NOT_pr_" +:+ r → base_rule v (Some r)
  | base_pr r :
      ¬ has_suffix v "_AC" → ¬ has_prefix v "NOT_pr_" →
      v = "pr_" +:+ r → base_rule v (Some r)
  | base_not r :
      ¬ has_suffix v "_AC" → ¬ has_prefix v "NOT_pr_" → ¬ has_prefix v "pr_" →
      v = "NOT_" +:+ r → base_rule v (Some r)
  | base_other :
      ¬ has_suffix v "_AC" → ¬ has_prefix v "NOT_pr_" → ¬ has_prefix v "pr_" →
      ¬ has_prefix v "NOT_" → base_rule v None.

(** What a pattern matches, as a relation: the text, and the groups
    before and after.  The anchors are left unconstrained here. *)
Fixpoint all_chars (p : ascii → bool) (t : string) : bool :=
  match t with
  | EmptyString => true
  | String a t' => p a && all_chars p t'
  end.

Inductive matches : Re.regex → string → gmap nat string → gmap nat string → Prop :=
  | matches_eps g : matches Re.Eps "" g g
  | matches_bos g : matches Re.Bos "" g g
  | matches_eos g : matches Re.Eos "" g g
  | matches_cls p a g : p a = true → matches (Re.Cls p) (String a "") g g
  | matches_many p t g : all_chars p t = true → matches (Re.Many p) t g g
  | matches_opt_some r t g g' : matches r t g g' → matches (Re.Opt r) t g g'
  | matches_opt_none r g : matches (Re.Opt r) "" g g
  | matches_seq r1 r2 t1 t2 g g1 g2 :
      matches r1 t1 g g1 → matches r2 t2 g1 g2 →
      matches (Re.Seq r1 r2) (t1 +:+ t2) g g2
  | matches_group n r t g g' :
      matches r t g g' → matches (Re.Group n r) t g (<[n := t]> g').

(** Label and equation of a line that matches the label pattern. *)
Definition label_line_match (s : string) : option (string * string) :=
  (λ m, (Re.group m 1, Re.group m 2)) <$> Re.match_ label_line_re s.

(** The coefficient of a pair, and the sum of the coefficients that the
    pairs of one equation give to a variable. *)
Definition coeff_of (p : string * string) : Z := default 0 (Py.int p.1).

Definition coeff_sum (var : string) (pairs : list (string * string)) : Z :=
  foldr (λ p acc, if decide (p.2 = var) then coeff_of p + acc else acc) 0 pairs.

(** The mapping of one equation as a function of its pairs, and the
    columns that the output of one call of the parser contributes, in
    the order of its lines. *)
Definition mapping_of (pairs : list (string * string)) : gmap string Z :=
  foldl (λ m p, <[p.2 := get0 m p.2 + coeff_of p]> m) ∅ pairs.

Fixpoint columns_of_lines (lines : list string) (capturing : bool)
    : list (string * gmap string Z) :=
  match lines with
  | [] => []
  | out_line :: rest =>
      let s := Py.strip out_line in
      if decide (s = "PRINTING RULES:") then columns_of_lines rest true
      else if negb capturing then columns_of_lines rest capturing
      else
        match Re.match_ label_line_re s with
        | None => columns_of_lines rest capturing
        | Some m =>
            match Re.findall pair_re (Re.group m 2) with
            | [] => columns_of_lines rest capturing
            | pairs =>
                (Re.group m 1, mapping_of pairs) :: columns_of_lines rest capturing
            end
        end
  end.

(** The index and the list of variables name the same variables, each
    once. *)
Definition tables_wf (st : tables) : Prop :=
  NoDup (all_vars st) ∧ ∀ v, v ∈ all_vars st ↔ is_Some (var_index st !! v).

(** The argument vector of one call of the parser. *)
Definition argv_of (E : env) (rule : string) : list string :=
  [parser_path E; "--rule"; rule].

(** The rule a raw line stands for, if it is not skipped. *)
Definition rule_of (raw : string) : option string :=
  let line := clean_line raw in
  if skipped line then None else Some (rewrite_label line).

Definition rules_of (raws : list string) : list string := omap rule_of raws.

Definition parser_ok (E : env) (rule : string) : Prop :=
  returncode (exec E (argv_of E rule)) = 0.

(** The rules up to and including the first one the parser rejects. *)
Fixpoint upto_failure (E : env) (rules : list string) : list string :=
  match rules with
  | [] => []
  | r :: rs =>
      if decide (returncode (exec E (argv_of E r)) ≠ 0) then [r]
      else r :: upto_failure E rs
  end.

(** The columns collected from a list of rules that the parser accepts:
    rule after rule, and within a rule line after line of its output. *)
Definition columns_of_rule (E : env) (rule : string)
    : list (string * gmap string Z) :=
  columns_of_lines (Py.splitlines (stdout (exec E (argv_of E rule)))) false.

Definition columns_of_rules (E : env) (rules : list string)
    : list (string * gmap string Z) :=
  rules ≫= columns_of_rule E.

(** Strictly ascending by code points. *)
Definition str_lt : relation string := strict String.le.

(** What is known of the order in which a set is iterated: every element
    comes once. *)
Definition enumerates (iter_order : gset string → list string) : Prop :=
  ∀ s, iter_order s ≡ₚ elements s.

Definition ex_column (g : string) : string * gmap string Z :=
  ("EX_" +:+ g, {[g +:+ "_AC" := -1]}).

Definition av_column (st : tables) (b : string) : string * gmap string Z :=
  ("AV_" +:+ b, av_mapping st b).

(** The variables that count as observed once the rows are normalized,
    and the bases read off them. *)
Definition gene_bases (iter_order : gset string → list string) (st : tables)
    : list string :=
  sorted_set iter_order (classify (all_vars (normalize iter_order st))).1.

Definition protein_bases (iter_order : gset string → list string) (st : tables)
    : list string :=
  sorted_set iter_order (classify (all_vars (normalize iter_order st))).2.

(** [st] holds what the rules loop has collected when it has passed every
    line of the rules file. *)
Definition ingested (E : env) (st : tables) : Prop :=
  ∃ raws calls,
    rules_file E = Some raws
    ∧ rules_loop E 1 raws empty_tables [] = (calls, Done st).

(** Two runs find the same files and a parser that behaves alike. *)
Definition same_surroundings (E1 E2 : env) : Prop :=
  parser_path E1 = parser_path E2
  ∧ parser_exists E1 = parser_exists E2
  ∧ rules_path E1 = rules_path E2
  ∧ rules_file E1 = rules_file E2
  ∧ ∀ argv, exec E1 argv = exec E2 argv.

(** The property as the description words it, in two parts: every base
    that [protein_base] derives from an observed variable has both rows,
    and rows that no column of the rules refers to hold 0 in every
    column of the matrix. *)
Definition base_rows_present_as_described
    (iter_order : gset string → list string) (E : env) : Prop :=
  ∀ st v b,
    ingested E st → v ∈ all_vars st → protein_base v = Some b →
    "pr_" +:+ b ∈ all_vars (finish iter_order st)
    ∧ "NOT_pr_" +:+ b ∈ all_vars (finish iter_order st).

Definition unreferenced_rows_zero_as_described
    (iter_order : gset string → list string) (E : env) : Prop :=
  ∀ st v b,
    ingested E st → v ∈ all_vars st → protein_base v = Some b →
    (∀ c, c ∈ columns st →
          c.2 !! ("pr_" +:+ b) = None ∧ c.2 !! ("NOT_pr_" +:+ b) = None) →
    Forall (λ c, get0 c.2 ("pr_" +:+ b) = 0 ∧ get0 c.2 ("NOT_pr_" +:+ b) = 0)
      (columns (finish iter_order st)).

(** The index of a variable is its place in the list of variables. *)
Definition index_is_position (st : tables) : Prop :=
  ∀ v i, var_index st !! v = Some i ↔ all_vars st !! i = Some v.

(** One state of the tables extends another: what was collected stays,
    and stays where it is. *)
Definition extends (st st' : tables) : Prop :=
  all_vars st `prefix_of` all_vars st'
  ∧ columns st `prefix_of` columns st'
  ∧ var_index st ⊆ var_index st'.

(** A name that can stand in a tab separated line as it is: not empty,
    and free of whitespace. *)
Definition clean_name (s : string) : Prop :=
  s ≠ "" ∧ all_chars Py.nonspace s = true.

(** The names that the loop over the rules collects. *)
Definition names_clean (st : tables) : Prop :=
  Forall clean_name (all_vars st) ∧ Forall clean_name (columns st).*1.

(** Columns and rows refer to each other: every variable that a column
    gives a coefficient to is a row, and every row gets a coefficient
    from some column. *)
Definition keys_are_rows (st : tables) : Prop :=
  ∀ c v, c ∈ columns st → is_Some (c.2 !! v) → v ∈ all_vars st.

Definition rows_are_keys (st : tables) : Prop :=
  ∀ v, v ∈ all_vars st → ∃ c, c ∈ columns st ∧ is_Some (c.2 !! v).

(** The three invariants of the tables that the rules loop keeps. *)
Definition linked (st : tables) : Prop :=
  tables_wf st ∧ keys_are_rows st ∧ rows_are_keys st.

(** One text quotes another: the second occurs in the first.
    [occurs_in] decides it, as Python's [t in s] does. *)
Definition quotes (s t : string) : Prop := ∃ a b, s = a +:+ t +:+ b.

Fixpoint occurs_in (t s : string) : bool :=
  Py.startswith s t
  || match s with
     | EmptyString => false
     | String _ s' => occurs_in t s'
     end.

(** The report of a rejected line in the words of the description: the
    run ends with the parser's exit code, prints no matrix, and prints a
    diagnostic that quotes the 1-based number of the line and the text
    of the line, here without the whitespace around it. *)
Definition failure_reported_as_described
    (iter_order : gset string → list string) (E : env) : Prop :=
  ∀ pre raw post rule,
    parser_exists E = true →
    rules_file E = Some (pre ++ raw :: post) →
    Forall (parser_ok E) (rules_of pre) →
    rule_of raw = Some rule →
    returncode (exec E (argv_of E rule)) ≠ 0 →
    run_status (main iter_order E) = Exit (returncode (exec E (argv_of E rule)))
    ∧ run_out (main iter_order E) = []
    ∧ ∃ msg, msg ∈ run_err (main iter_order E)
             ∧ quotes msg (pretty (S (length pre)))
             ∧ quotes msg (clean_line raw).

(** A decimal number with an optional sign, the text that the first
    group of the pair pattern stands for. *)
Definition signed_number (s : string) : Prop :=
  ∃ sign digits,
    s = sign +:+ digits
    ∧ (sign = "" ∨ sign = "+" ∨ sign = "-")
    ∧ digits ≠ ""
    ∧ all_chars Py.isdigit digits = true.

(** ** A small run, used to exercise the statements *)

Definition sample_exec (argv : list string) : CompletedProcess :=
  match argv with
  | [_; _; rule] =>
      if decide (rule = "bad") then
        {| returncode := 3; stdout := ""; stderr := "boom" |}
      else if decide (rule = "G1 (1 pr_A) AND NOT (1 pr_B)") then
        {| returncode := 0;
           stdout := "banner" +:+ NL +:+ "PRINTING RULES:" +:+ NL
                     +:+ "G1: 1 pr_A -1 pr_B + 2 A_AC" +:+ NL;
           stderr := "" |}
      else
        {| returncode := 0;
           stdout := "PRINTING RULES:" +:+ NL +:+ "X: 2 NOT_Q 1 pr_" +:+ NL;
           stderr := "" |}
  | _ => {| returncode := 1; stdout := ""; stderr := "usage" |}
  end.

Definition sample_env (raws : list string) : env :=
  {| parser_path := "/opt/expressionParser_bl.pl"; parser_exists := true;
     rules_path := "rules.txt"; rules_file := Some raws;
     exec := sample_exec |}.

Definition sample_rules : list string :=
  ["# two rules"; ""; "G1: (1 pr_A) AND NOT (1 pr_B)"; "  G2: x:y "].

Definition sample_failing_rules : list string :=
  ["# two rules"; ""; "G1: (1 pr_A) AND NOT (1 pr_B)"; "G2: x"; "bad"; "G3: z"].

(** The same parser, but for the second rule of the sample, which it
    rejects. *)
Definition sample_strict_exec (argv : list string) : CompletedProcess :=
  match argv with
  | [_; _; rule] =>
      if decide (rule = "G2 x:y") then
        {| returncode := 3; stdout := ""; stderr := "boom" |}
      else sample_exec argv
  | _ => sample_exec argv
  end.

Definition sample_strict_env : env :=
  {| parser_path := "/opt/expressionParser_bl.pl"; parser_exists := true;
     rules_path := "rules.txt"; rules_file := Some (sample_rules ++ ["G3: z"]);
     exec := sample_strict_exec |}.

Definition sample_tables : tables :=
  {| columns := [("G1", {["pr_A" := 1; "pr_B" := -1; "A_AC" := 2]});
                 ("X", {["NOT_Q" := 2; "pr_" := 1]})];
     all_vars := ["pr_A"; "pr_B"; "A_AC"; "NOT_Q"; "pr_"];
     var_index := {["pr_A" := 0%nat; "pr_B" := 1%nat; "A_AC" := 2%nat;
                    "NOT_Q" := 3%nat; "pr_" := 4%nat]} |}.

(** ** The built-ins and the patterns on examples *)

Example strip_ex : Py.strip "  G1: a b 	" = "G1: a b".
Proof. vm_compute. reflexivity. Qed.
Example splitlines_ex :
  Py.splitlines (String "a" (String Py.CR (String Py.LF (String Py.LF "b")))) = ["a"; ""; "b"].
Proof. vm_compute. reflexivity. Qed.
Example int_ex : Py.int "-12" = Some (-12) ∧ Py.int "+7" = Some 7 ∧ Py.int "x" = None.
Proof. vm_compute. auto. Qed.
Example str_ex : Py.str_int (-10) = "-10" ∧ Py.str_int 0 = "0".
Proof. vm_compute. auto. Qed.
Example ends_ex : Py.endswith "X_AC" "_AC" = true ∧ Py.slice_drop_last 3 "X_AC" = "X".
Proof. vm_compute. auto. Qed.
Example label_line_ex :
  label_line_match "G1: 1 pr_A -1 pr_B" = Some ("G1", "1 pr_A -1 pr_B")
  ∧ label_line_match "G1:" = None
  ∧ label_line_match "no label here" = None
  ∧ label_line_match "a:b: c" = None.
Proof. vm_compute. auto. Qed.
Example label_line_edges_ex :
  label_line_match ("a:" +:+ NL +:+ " b") = Some ("a", "b")
  ∧ label_line_match ("a: b" +:+ NL +:+ "c") = None
  ∧ label_line_match ("a: b" +:+ NL) = Some ("a", "b")
  ∧ label_line_match ("a:  b  c " +:+ TABs) = Some ("a", "b  c")
  ∧ label_line_match "a: :" = Some ("a", ":")
  ∧ label_line_match "x:y: z w" = None.
Proof. vm_compute. auto 10. Qed.
Example findall_edges_ex :
  Re.findall pair_re "12  " = []
  ∧ Re.findall pair_re "+ 3 a" = [("3", "a")]
  ∧ Re.findall pair_re "1 2 3 4" = [("1", "2"); ("3", "4")]
  ∧ Re.findall pair_re ("-1" +:+ TABs +:+ "q 5" +:+ NL +:+ " r") = [("-1", "q"); ("5", "r")]
  ∧ Re.findall pair_re "3 a4 b" = [("3", "a4")].
Proof. vm_compute. auto 10. Qed.
Example splitlines_edges_ex :
  Py.splitlines NL = [""]
  ∧ Py.splitlines ("a" +:+ CRs) = ["a"]
  ∧ Py.splitlines ("a" +:+ CRs +:+ CRs +:+ "b" +:+ NL) = ["a"; ""; "b"].
Proof. vm_compute. auto. Qed.
Example split_ex :
  Py.split1 ":" "a:b:c" = ["a"; "b:c"] ∧ Py.split1 ":" "abc" = ["abc"].
Proof. vm_compute. auto. Qed.
Example sorted_ex :
  sorted ["pr_a"; "NOT_x"; "A_AC"; "pr_"; "pr_A"; "a"; "B"; "_"; "z"]
  = ["A_AC"; "B"; "NOT_x"; "_"; "a"; "pr_"; "pr_A"; "pr_a"; "z"].
Proof. vm_compute. reflexivity. Qed.
Example protein_base_ex :
  protein_base "NOT_pr_X" = Some "X"
  ∧ protein_base "pr_X" = Some "X"
  ∧ protein_base "NOT_X" = Some "X"
  ∧ protein_base "pr_X_AC" = None
  ∧ protein_base "X" = None.
Proof. vm_compute. auto 10. Qed.
Example findall_ex :
  Re.findall pair_re "1 pr_A + -1 pr_B" = [("1", "pr_A"); ("-1", "pr_B")]
  ∧ Re.findall pair_re "2 pr_X -1 pr_X" = [("2", "pr_X"); ("-1", "pr_X")]
  ∧ Re.findall pair_re "x12 y +-3  z 4" = [("12", "y"); ("-3", "z")].
Proof. vm_compute. auto. Qed.

(** ** Facts about the string built-ins *)

Section StringFacts.

Implicit Types (s p q r : string) (c : ascii).

Lemma app_cons c s r : String c s +:+ r = String c (s +:+ r).
Proof. reflexivity. Qed.

Lemma app_empty_l s : "" +:+ s = s.
Proof. reflexivity. Qed.

Lemma app_empty_r s : s +:+ "" = s.
Proof. induction s as [|c s IH]; [done|]. by rewrite app_cons, IH. Qed.

Lemma app_assoc' s q r : (s +:+ q) +:+ r = s +:+ (q +:+ r).
Proof. induction s as [|c s IH]; [done|]. by rewrite !app_cons, IH. Qed.

Lemma app_length s r :
  String.length (s +:+ r) = (String.length s + String.length r)%nat.
Proof. induction s as [|c s IH]; [done|]. rewrite app_cons. simpl. by rewrite IH. Qed.

Lemma app_eq_self_l s r : s +:+ r = r → s = "".
Proof.
  intros H. apply (f_equal String.length) in H. rewrite app_length in H.
  destruct s; [done|]. simpl in H. lia.
Qed.

Lemma app_empty_inv s r : s +:+ r = "" → s = "" ∧ r = "".
Proof. destruct s; [done|]. by rewrite app_cons. Qed.

Lemma startswith_spec s p : Py.startswith s p = true ↔ ∃ r, s = p +:+ r.
Proof.
  revert s. induction p as [|a p IH]; intros s.
  - split; [|by destruct s]. intros _. by exists s.
  - destruct s as [|b s]; simpl.
    + split; [done|]. intros [r Hr]. by rewrite app_cons in Hr.
    + destruct (decide (a = b)) as [->|Hne].
      * rewrite IH. split; intros [r Hr]; exists r.
        -- by rewrite app_cons, Hr.
        -- rewrite app_cons in Hr. by simplify_eq.
      * split; [done|]. intros [r Hr]. rewrite app_cons in Hr. by simplify_eq.
Qed.

Lemma slice_from_app p r : Py.slice_from (String.length p) (p +:+ r) = r.
Proof. induction p as [|a p IH]; [by destruct r|]. by rewrite app_cons. Qed.

Lemma startswith_app p r : Py.startswith (p +:+ r) p = true.
Proof. apply startswith_spec. by exists r. Qed.

Lemma occurs_in_unfold t s :
  occurs_in t s
  = Py.startswith s t
    || match s with
       | EmptyString => false
       | String _ s' => occurs_in t s'
       end.
Proof. by destruct s. Qed.

Lemma occurs_in_spec t s : occurs_in t s = true ↔ quotes s t.
Proof.
  split.
  - induction s as [|c s IH]; rewrite occurs_in_unfold, orb_true_iff.
    + intros [[r Hr]%startswith_spec|?]; [|done].
      exists "", r. by rewrite app_empty_l.
    + intros [[r Hr]%startswith_spec|(a & b & ->)%IH].
      * exists "", r. by rewrite app_empty_l.
      * exists (String c a), b. by rewrite app_cons.
  - intros (a & b & ->). induction a as [|c a IH]; rewrite occurs_in_unfold.
    + by rewrite app_empty_l, startswith_app.
    + by rewrite app_cons, IH, orb_true_r.
Qed.

Lemma endswith_spec s p : Py.endswith s p = true ↔ ∃ q, s = q +:+ p.
Proof.
  induction s as [|a s IH].
  - simpl. destruct (decide ("" = p)) as [<-|Hne].
    + split; [|done]. intros _. by exists "".
    + split; [done|]. intros [q Hq]. symmetry in Hq.
      apply app_empty_inv in Hq as [_ ->]. done.
  - cbn [Py.endswith]. destruct (decide (String a s = p)) as [<-|Hne].
    + split; [|done]. intros _. by exists "".
    + rewrite IH. split.
      * intros [q ->]. exists (String a q). by rewrite app_cons.
      * intros [[|b q] Hq]; [by rewrite app_empty_l in Hq|].
        rewrite app_cons in Hq. simplify_eq. by exists q.
Qed.

Lemma endswith_app q p : Py.endswith (q +:+ p) p = true.
Proof. apply endswith_spec. by exists q. Qed.

Lemma slice_to_app q p : Py.slice_to (String.length q) (q +:+ p) = q.
Proof. induction q as [|a q IH]; [done|]. rewrite app_cons. simpl. by rewrite IH. Qed.

Lemma slice_drop_last_app q p :
  Py.slice_drop_last (String.length p) (q +:+ p) = q.
Proof.
  unfold Py.slice_drop_last. rewrite app_length.
  replace (String.length q + String.length p - String.length p)%nat
    with (String.length q) by lia.
  apply slice_to_app.
Qed.

Lemma endswith_inv s p :
  Py.endswith s p = true → s = Py.slice_drop_last (String.length p) s +:+ p.
Proof. intros [q ->]%endswith_spec. by rewrite slice_drop_last_app. Qed.

(** A string that ends in [p] after a prefix ending like [p] does so
    already without the prefix, when the remainder is long enough. *)
Lemma endswith_app_long q r p :
  (String.length p ≤ String.length r)%nat →
  Py.endswith (q +:+ r) p = true → Py.endswith r p = true.
Proof.
  intros Hlen. induction q as [|a q IH]; [done|].
  rewrite app_cons. cbn [Py.endswith].
  destruct (decide (String a (q +:+ r) = p)) as [<-|_]; [|done].
  simpl in Hlen. rewrite app_length in Hlen. lia.
Qed.

End StringFacts.

(** ** The protein base of a variable *)

Section ProteinBase.

Implicit Types (v b : string).

Lemma startswith_false v p : Py.startswith v p = false ↔ ¬ has_prefix v p.
Proof.
  unfold has_prefix. rewrite <-startswith_spec.
  destruct (Py.startswith v p); naive_solver.
Qed.

Lemma endswith_false v p : Py.endswith v p = false ↔ ¬ has_suffix v p.
Proof.
  unfold has_suffix. rewrite <-endswith_spec.
  destruct (Py.endswith v p); naive_solver.
Qed.

Lemma startswith_slice v p :
  Py.startswith v p = true → v = p +:+ Py.slice_from (String.length p) v.
Proof. intros [r ->]%startswith_spec. by rewrite slice_from_app. Qed.

Lemma base_rule_sound v : base_rule v (protein_base v).
Proof.
  unfold protein_base.
  destruct (Py.endswith v "_AC") eqn:Hac.
  { apply base_gene_activity. by apply endswith_spec. }
  apply endswith_false in Hac.
  destruct (Py.startswith v "NOT_pr_") eqn:H1.
  { apply base_not_pr; [done|]. by apply startswith_slice. }
  apply startswith_false in H1.
  destruct (Py.startswith v "pr_") eqn:H2.
  { apply base_pr; [done..|]. by apply startswith_slice. }
  apply startswith_false in H2.
  destruct (Py.startswith v "NOT_") eqn:H3.
  { apply base_not; [done..|]. by apply startswith_slice. }
  apply startswith_false in H3.
  by apply base_other.
Qed.

Lemma base_rule_functional v o1 o2 : base_rule v o1 → base_rule v o2 → o1 = o2.
Proof.
  assert (Hinj : ∀ p r1 r2, v = p +:+ r1 → v = p +:+ r2 → Some r1 = Some r2).
  { intros p r1 r2 -> H%(inj _). by rewrite H. }
  destruct 1; destruct 1; try done; try (by eapply Hinj);
    exfalso; unfold has_prefix in *; eauto.
Qed.

Lemma protein_base_Some v b :
  protein_base v = Some b →
  Py.endswith v "_AC" = false
  ∧ (v = "NOT_pr_" +:+ b ∨ v = "pr_" +:+ b ∨ v = "NOT_" +:+ b).
Proof.
  intros Hb. pose proof (base_rule_sound v) as Hr. rewrite Hb in Hr.
  inversion Hr; subst; rewrite endswith_false; auto.
Qed.

Lemma protein_base_pr b :
  Py.endswith ("pr_" +:+ b) "_AC" = false → protein_base ("pr_" +:+ b) = Some b.
Proof.
  intros Hac. unfold protein_base. rewrite Hac.
  change (Py.startswith ("pr_" +:+ b) "NOT_pr_") with false.
  by rewrite startswith_app, slice_from_app.
Qed.

Lemma protein_base_not_pr b :
  Py.endswith ("NOT_pr_" +:+ b) "_AC" = false →
  protein_base ("NOT_pr_" +:+ b) = Some b.
Proof.
  intros Hac. unfold protein_base. rewrite Hac.
  by rewrite startswith_app, slice_from_app.
Qed.

End ProteinBase.

(** C6.  The protein base of a variable is fixed by the rule of the
    description and by nothing else: a variable ending in [_AC] has none;
    otherwise the text behind [NOT_pr_] is the base, else the text behind
    [pr_], else the text behind [NOT_], else there is none. *)
Theorem protein_base_precedence (v : string) :
  base_rule v (protein_base v) ∧ ∀ o, base_rule v o → o = protein_base v.
Proof.
  split; [apply base_rule_sound|].
  intros o Ho. eapply base_rule_functional; [done|apply base_rule_sound].
Qed.

(** ** The matcher finds only what the pattern describes *)

Section Matcher.

Implicit Types (r : Re.regex) (s t : string) (g : gmap nat string).

Lemma consumed_app t s : Re.consumed (t +:+ s) s = t.
Proof.
  unfold Re.consumed. rewrite app_length.
  replace (String.length t + String.length s - String.length s)%nat
    with (String.length t) by lia.
  apply slice_to_app.
Qed.

Lemma many_sound {R} p s (k : string → option R) x :
  Re.many p s k = Some x →
  ∃ t s', s = t +:+ s' ∧ all_chars p t = true ∧ k s' = Some x.
Proof.
  induction s as [|a s IH]; cbn [Re.many].
  { intros Hk. by exists "", "". }
  destruct (p a) eqn:Ha; [|intros Hk; by exists "", (String a s)].
  destruct (Re.many p s k) as [y|] eqn:Hmany.
  - intros [= ->]. destruct (IH eq_refl) as (t & s' & -> & Ht & Hk).
    exists (String a t), s'. split_and!; [done| |done]. simpl. by rewrite Ha.
  - intros Hk. by exists "", (String a s).
Qed.

Lemma run_sound {R} whole r s g (k : string → gmap nat string → option R) x :
  Re.run whole r s g k = Some x →
  ∃ t s' g', s = t +:+ s' ∧ matches r t g g' ∧ k s' g' = Some x.
Proof.
  revert s g k. induction r as [| | |p|p|r IH|r1 IH1 r2 IH2|n r IH];
    intros s g k; cbn [Re.run].
  - intros Hk. exists "", s, g. split_and!; [done|constructor|done].
  - destruct (decide _); [|done].
    intros Hk. exists "", s, g. split_and!; [done|constructor|done].
  - destruct (decide _); [|done].
    intros Hk. exists "", s, g. split_and!; [done|constructor|done].
  - destruct s as [|a s]; [done|]. destruct (p a) eqn:Ha; [|done].
    intros Hk. exists (String a ""), s, g. split_and!; [done|by constructor|done].
  - intros (t & s' & -> & Ht & Hk)%many_sound.
    exists t, s', g. split_and!; [done|by constructor|done].
  - destruct (Re.run whole r s g k) as [y|] eqn:Hrun.
    + intros [= ->]. destruct (IH _ _ _ Hrun) as (t & s' & g' & -> & Hm & Hk).
      exists t, s', g'. split_and!; [done|by apply matches_opt_some|done].
    + intros Hk. exists "", s, g. split_and!; [done|apply matches_opt_none|done].
  - intros (t1 & s1 & g1 & -> & Hm1 & Hrest)%IH1.
    apply IH2 in Hrest as (t2 & s2 & g2 & -> & Hm2 & Hk).
    exists (t1 +:+ t2), s2, g2.
    split_and!; [by rewrite app_assoc'|by econstructor|done].
  - intros (t & s' & g' & -> & Hm & Hk)%IH.
    rewrite consumed_app in Hk.
    exists t, s', (<[n := t]> g'). split_and!; [done|by constructor|done].
Qed.

End Matcher.

(** ** The coefficient pairs convert

    What the pair pattern captures first is a signed number, which [int]
    as modelled, without the limit on the digits, converts. *)

Section Conversion.

Lemma digits_val_all t acc :
  all_chars Re.digit t = true → is_Some (Py.digits_val acc t).
Proof.
  revert acc. induction t as [|c t IH]; intros acc; simpl; [by eexists|].
  intros [Hc Ht]%andb_true_iff. unfold Re.digit in Hc. rewrite Hc. by apply IH.
Qed.

Lemma int_signed_digits sign d ds :
  sign = "" ∨ sign = "+" ∨ sign = "-" →
  Re.digit d = true → all_chars Re.digit ds = true →
  is_Some (Py.int (sign +:+ String d ds)).
Proof.
  intros Hsign Hd Hds.
  assert (Hval : ∀ acc, is_Some (Py.digits_val acc (String d ds))).
  { intros acc. apply digits_val_all. simpl. by rewrite Hd. }
  destruct Hsign as [->|[->| ->]].
  - rewrite app_empty_l. unfold Py.int.
    destruct (decide (d = "+"%char)) as [->|_]; [done|].
    destruct (decide (d = "-"%char)) as [->|_]; [done|]. apply Hval.
  - apply (Hval 0).
  - destruct (Hval 0) as [z Hz]. exists (- z).
    rewrite app_cons, app_empty_l. unfold Py.int.
    rewrite decide_False, decide_True by done. by rewrite Hz.
Qed.

(** The first group of a match of the pair pattern is a signed number. *)
Lemma pair_re_group1 t g :
  matches pair_re t ∅ g → is_Some (Py.int (Re.group g 1)).
Proof.
  unfold pair_re, Re.seqs, Re.plus. cbn [foldr]. intros Hm.
  repeat match goal with
         | H : matches (Re.Seq _ _) _ _ _ |- _ => inversion H; clear H; subst
         | H : matches (Re.Group _ _) _ _ _ |- _ => inversion H; clear H; subst
         | H : matches (Re.Cls _) _ _ _ |- _ => inversion H; clear H; subst
         | H : matches (Re.Many _) _ _ _ |- _ => inversion H; clear H; subst
         | H : matches Re.Eps _ _ _ |- _ => inversion H; clear H; subst
         | H : matches (Re.Opt _) _ _ _ |- _ => inversion H; clear H; subst
         end;
    unfold Re.group; rewrite lookup_insert_ne, lookup_insert_eq by done;
    cbn [default]; unfold id; rewrite ?app_empty_r, ?app_empty_l;
    match goal with
    | |- context [String ?a "" +:+ ?t] =>
        lazymatch t with
        | String _ _ +:+ _ => fail
        | _ => change (String a "" +:+ t) with (String a t)
        end
    end.
  - match goal with
    | H : Re.one_of "+-" ?a = true |- _ =>
        assert (String a "" = "+" ∨ String a "" = "-") as Hsign
    end.
    { unfold Re.one_of in *. cbn [Py.mem_char] in *.
      repeat case_decide; simplify_eq; auto. }
    apply int_signed_digits; [tauto|done..].
  - rewrite <-(app_empty_l (String _ _)).
    apply int_signed_digits; [by left|done..].
Qed.

Lemma findall_from_int whole k s :
  Forall (λ p, is_Some (Py.int p.1)) (Re.findall_from whole pair_re k s).
Proof.
  revert k. induction s as [|c s IH]; intros k; cbn [Re.findall_from]; [constructor|].
  destruct k as [|k]; [|apply IH].
  destruct (Re.pair_at whole pair_re (String c s)) as [[[g1 g2] n]|] eqn:Hp; [|apply IH].
  constructor; [|apply IH]. cbn [fst].
  unfold Re.pair_at in Hp.
  apply run_sound in Hp as (t & s' & g & _ & Hm & [= <- _ _]).
  by eapply pair_re_group1.
Qed.

Lemma findall_int eq : Forall (λ p, is_Some (Py.int p.1)) (Re.findall pair_re eq).
Proof. apply findall_from_int. Qed.

End Conversion.

(** ** What the loops keep true of the tables *)

Section Tables.

Implicit Types (st : tables) (v name : string).

Lemma empty_tables_wf : tables_wf empty_tables.
Proof.
  split; [constructor|]. intros v. simpl. rewrite lookup_empty.
  split; [by intros ?%elem_of_nil|by intros [? ?]].
Qed.

Lemma add_var_columns name st : columns (add_var name st) = columns st.
Proof. unfold add_var. by destruct (var_index st !! name). Qed.

Lemma add_var_vars name st :
  tables_wf st →
  all_vars (add_var name st)
  = all_vars st ++ (if decide (name ∈ all_vars st) then [] else [name]).
Proof.
  intros [_ Hidx]. unfold add_var.
  destruct (var_index st !! name) eqn:Hl.
  - rewrite decide_True; [by rewrite app_nil_r|]. apply Hidx. by eexists.
  - rewrite decide_False; [done|]. rewrite Hidx, Hl. by intros [? ?].
Qed.

Lemma add_var_elem name st v :
  tables_wf st → v ∈ all_vars (add_var name st) ↔ v = name ∨ v ∈ all_vars st.
Proof.
  intros Hwf. rewrite add_var_vars by done. rewrite elem_of_app.
  destruct (decide (name ∈ all_vars st)).
  - rewrite elem_of_nil. naive_solver.
  - rewrite list_elem_of_singleton. naive_solver.
Qed.

Lemma add_var_wf name st : tables_wf st → tables_wf (add_var name st).
Proof.
  intros Hwf. pose proof Hwf as [Hnd Hidx]. unfold add_var.
  destruct (var_index st !! name) eqn:Hl; [done|].
  assert (name ∉ all_vars st) by (rewrite Hidx, Hl; by intros [? ?]).
  split; simpl.
  - apply NoDup_app. split_and!; [done| |apply NoDup_singleton].
    intros x Hx ->%list_elem_of_singleton. done.
  - intros v. rewrite elem_of_app, list_elem_of_singleton, Hidx.
    destruct (decide (v = name)) as [->|Hne].
    + rewrite lookup_insert_eq. naive_solver.
    + rewrite lookup_insert_ne by done. naive_solver.
Qed.

Lemma append_column_wf c st : tables_wf st → tables_wf (append_column c st).
Proof. done. Qed.

Lemma var_index_lookup st v :
  tables_wf st → var_index st !! v = None ↔ v ∉ all_vars st.
Proof.
  intros [_ Hidx]. rewrite Hidx. rewrite eq_None_not_Some. done.
Qed.

End Tables.

(** ** One equation, one column *)

Section Equation.

Implicit Types (st : tables) (pairs : list (string * string)).

Lemma coeff_sum_absent var pairs : var ∉ pairs.*2 → coeff_sum var pairs = 0.
Proof.
  induction pairs as [|[c w] pairs IH]; simpl; [done|].
  rewrite not_elem_of_cons. intros [Hne Hnot].
  rewrite decide_False by done. by apply IH.
Qed.

Lemma coeff_sum_cons c w pairs var z :
  Py.int c = Some z →
  coeff_sum var ((c, w) :: pairs)
  = if decide (w = var) then z + coeff_sum var pairs else coeff_sum var pairs.
Proof. intros Hz. unfold coeff_sum, coeff_of. simpl. by rewrite Hz. Qed.

Lemma get0_insert (m : gmap string Z) w z var :
  get0 (<[w := z]> m) var = if decide (w = var) then z else get0 m var.
Proof. unfold get0. rewrite lookup_insert. by destruct (decide (w = var)). Qed.

Lemma pairs_loop_spec pairs (m : gmap string Z) st :
  Forall (λ p, is_Some (Py.int p.1)) pairs →
  ∃ m' st',
    pairs_loop pairs m st = Some (m', st')
    ∧ columns st' = columns st
    ∧ (tables_wf st → tables_wf st')
    ∧ ∀ var, m' !! var =
             if decide (var ∈ pairs.*2)
             then Some (get0 m var + coeff_sum var pairs)
             else m !! var.
Proof.
  intros Hint. revert m st.
  induction Hint as [|[c w] pairs [z Hz] _ IH]; intros m st.
  { by exists m, st. }
  simpl in Hz. cbn [pairs_loop]. rewrite Hz.
  destruct (IH (<[w := get0 m w + z]> m) (add_var w st))
    as (m' & st' & -> & Hcols & Hwf & Hm').
  exists m', st'. split_and!; [done| | |].
  - by rewrite Hcols, add_var_columns.
  - intros ?. by apply Hwf, add_var_wf.
  - intros var. rewrite Hm', (coeff_sum_cons _ _ _ _ _ Hz), get0_insert.
    rewrite fmap_cons. cbn [snd].
    destruct (decide (w = var)) as [->|Hne].
    + rewrite (decide_True (P := var ∈ var :: _)) by apply list_elem_of_here.
      destruct (decide (var ∈ pairs.*2)) as [Hin|Hnot].
      * f_equal. lia.
      * rewrite lookup_insert_eq. f_equal.
        rewrite coeff_sum_absent by done. lia.
    + destruct (decide (var ∈ pairs.*2)) as [Hin|Hnot].
      * rewrite decide_True by (by apply list_elem_of_further). done.
      * rewrite decide_False by (rewrite not_elem_of_cons; done).
        by rewrite lookup_insert_ne.
Qed.

Lemma pairs_loop_mapping pairs (m m' : gmap string Z) st st' :
  pairs_loop pairs m st = Some (m', st') →
  m' = foldl (λ m p, <[p.2 := get0 m p.2 + coeff_of p]> m) m pairs.
Proof.
  revert m st. induction pairs as [|[c w] pairs IH]; intros m st; cbn [pairs_loop foldl].
  { by intros [= <- _]. }
  destruct (Py.int c) as [z|] eqn:Hz; [|done]. intros Hloop.
  rewrite (IH _ _ Hloop). f_equal. unfold coeff_of. cbn [fst snd]. by rewrite Hz.
Qed.

Lemma scan_lines_columns lines capturing st st' :
  scan_lines lines capturing st = Some st' →
  columns st' = columns st ++ columns_of_lines lines capturing.
Proof.
  revert capturing st.
  induction lines as [|out_line rest IH]; intros capturing st;
    cbn [scan_lines columns_of_lines].
  { intros [= <-]. by rewrite app_nil_r. }
  destruct (decide (Py.strip out_line = "PRINTING RULES:")); [by apply IH|].
  destruct (negb capturing); [by apply IH|].
  destruct (Re.match_ label_line_re (Py.strip out_line)) as [m|]; [|by apply IH].
  cbv zeta. pose proof (findall_int (Re.group m 2)) as Hint.
  destruct (Re.findall pair_re (Re.group m 2)) as [|p pairs]; [by apply IH|].
  destruct (pairs_loop_spec (p :: pairs) ∅ st Hint) as (m' & st1 & Hloop & Hcols & _).
  rewrite Hloop. intros ->%IH. simpl. rewrite Hcols, <-app_assoc.
  by rewrite (pairs_loop_mapping _ _ _ _ _ Hloop).
Qed.

Lemma scan_lines_total lines capturing st :
  tables_wf st →
  ∃ st', scan_lines lines capturing st = Some st' ∧ tables_wf st'.
Proof.
  revert capturing st.
  induction lines as [|out_line rest IH]; intros capturing st Hwf;
    cbn [scan_lines].
  { by exists st. }
  destruct (decide (Py.strip out_line = "PRINTING RULES:")); [by apply IH|].
  destruct (negb capturing); [by apply IH|].
  destruct (Re.match_ label_line_re (Py.strip out_line)) as [m|]; [|by apply IH].
  cbv zeta. pose proof (findall_int (Re.group m 2)) as Hint.
  destruct (Re.findall pair_re (Re.group m 2)) as [|p pairs]; [by apply IH|].
  destruct (pairs_loop_spec (p :: pairs) ∅ st Hint)
    as (m' & st' & -> & _ & Hwf' & _).
  apply IH. by apply append_column_wf, Hwf'.
Qed.

End Equation.

(** C5.  When a line of the parser's output matches the label pattern
    and its equation holds at least one coefficient and variable pair,
    one column is appended under the label, and it maps every variable
    of the equation to the sum of the coefficients of all the pairs that
    name it (and no other variable to anything). *)
Theorem equation_column_sums (out_line label eq : string) (st : tables) :
  label_line_match (Py.strip out_line) = Some (label, eq) →
  Re.findall pair_re eq ≠ [] →
  ∃ mapping st',
    scan_lines [out_line] true st = Some st'
    ∧ columns st' = columns st ++ [(label, mapping)]
    ∧ ∀ var, mapping !! var =
             if decide (var ∈ (Re.findall pair_re eq).*2)
             then Some (coeff_sum var (Re.findall pair_re eq))
             else None.
Proof.
  intros Hre Hpairs. cbn [scan_lines].
  destruct (decide (Py.strip out_line = "PRINTING RULES:")) as [Hmark|_].
  { rewrite Hmark in Hre. vm_compute in Hre. done. }
  cbn [negb]. unfold label_line_match in Hre.
  destruct (Re.match_ label_line_re (Py.strip out_line)) as [m|]; [|done].
  cbv zeta. simpl in Hre. injection Hre as <- <-.
  pose proof (findall_int (Re.group m 2)) as Hint.
  destruct (Re.findall pair_re (Re.group m 2)) as [|p pairs] eqn:Hfind; [done|].
  destruct (pairs_loop_spec (p :: pairs) ∅ st Hint)
    as (m' & st' & -> & Hcols & _ & Hm').
  exists m', (append_column (Re.group m 1, m') st'). split_and!; [done| |].
  - simpl. by rewrite Hcols.
  - intros var. rewrite Hm'. unfold get0. rewrite !lookup_empty. simpl.
    destruct (decide _); [f_equal; lia|done].
Qed.

Lemma equation_column_sums_witness :
  ∃ mapping st',
    scan_lines ["G1: 2 pr_X -1 pr_X"] true empty_tables = Some st'
    ∧ columns st' = [("G1", mapping)]
    ∧ mapping !! "pr_X" = Some 1
    ∧ mapping !! "G1" = None.
Proof.
  destruct (equation_column_sums "G1: 2 pr_X -1 pr_X" "G1" "2 pr_X -1 pr_X"
              empty_tables) as (mapping & st' & Hscan & Hcols & Hm).
  - vm_compute. reflexivity.
  - vm_compute. discriminate.
  - exists mapping, st'. split_and!; [exact Hscan|exact Hcols| |].
    + rewrite Hm. vm_compute. reflexivity.
    + rewrite Hm. vm_compute. reflexivity.
Defined.

(** ** The loop over the rules *)

Section RulesLoop.

Variable E : env.
Implicit Types (st : tables) (raws : list string) (calls : list (list string)).

Lemma contains_spec c s :
  Py.contains c s = true ↔ ∃ a b, s = a +:+ String c b.
Proof.
  unfold Py.contains. induction s as [|d s IH]; simpl.
  - split; [done|]. intros (a & b & H). symmetry in H.
    by apply app_empty_inv in H as [_ ?].
  - destruct (decide (c = d)) as [->|Hne].
    + split; [|done]. intros _. by exists "", s.
    + rewrite IH. split.
      * intros (a & b & ->). by exists (String d a), b.
      * intros ([|a0 a] & b & H); rewrite ?app_empty_l, ?app_cons in H;
          simplify_eq. by exists a, b.
Qed.

Lemma split1_first c head tail :
  Py.contains c head = false →
  Py.split1 c (head +:+ String c tail) = [head; tail].
Proof.
  unfold Py.contains. induction head as [|d head IH]; cbn [Py.mem_char].
  - intros _. rewrite app_empty_l. simpl. by rewrite decide_True.
  - destruct (decide (c = d)) as [|Hne]; [done|]. intros Hno.
    rewrite app_cons. simpl. rewrite decide_False by done. by rewrite IH.
Qed.

Lemma rewrite_label_colon head tail :
  Py.contains ":" head = false →
  rewrite_label (head +:+ String ":" tail) = Py.strip head +:+ " " +:+ Py.strip tail.
Proof.
  intros Hno. unfold rewrite_label.
  rewrite (proj2 (contains_spec _ _)) by (by exists head, tail).
  by rewrite split1_first.
Qed.

Lemma rewrite_label_plain line : Py.contains ":" line = false → rewrite_label line = line.
Proof. intros Hno. unfold rewrite_label. by rewrite Hno. Qed.

Lemma rules_loop_step_skip raw raws idx st calls :
  rule_of raw = None →
  rules_loop E idx (raw :: raws) st calls = rules_loop E (S idx) raws st calls.
Proof.
  unfold rule_of. cbn [rules_loop]. by destruct (skipped (clean_line raw)).
Qed.

Lemma rules_loop_step_fail raw rule raws idx st calls :
  rule_of raw = Some rule →
  returncode (exec E (argv_of E rule)) ≠ 0 →
  rules_loop E idx (raw :: raws) st calls
  = (calls ++ [argv_of E rule],
     Returned (returncode (exec E (argv_of E rule)))
       (failure_msg (returncode (exec E (argv_of E rule))) idx rule
          (stderr (exec E (argv_of E rule))))).
Proof.
  unfold rule_of. cbn [rules_loop]. destruct (skipped (clean_line raw)); [done|].
  intros [= <-] Hrc. unfold run_parser. fold (argv_of E (rewrite_label (clean_line raw))).
  by rewrite decide_True.
Qed.

Lemma rules_loop_step_ok raw rule raws idx st calls :
  rule_of raw = Some rule →
  returncode (exec E (argv_of E rule)) = 0 →
  tables_wf st →
  ∃ st', tables_wf st'
         ∧ scan_lines (Py.splitlines (stdout (exec E (argv_of E rule)))) false st = Some st'
         ∧ rules_loop E idx (raw :: raws) st calls
           = rules_loop E (S idx) raws st' (calls ++ [argv_of E rule]).
Proof.
  unfold rule_of. cbn [rules_loop]. destruct (skipped (clean_line raw)); [done|].
  intros [= <-] Hrc Hwf. unfold run_parser.
  fold (argv_of E (rewrite_label (clean_line raw))).
  rewrite decide_False by (by intros ?).
  destruct (scan_lines_total
              (Py.splitlines (stdout (exec E (argv_of E (rewrite_label (clean_line raw))))))
              false st Hwf) as (st' & -> & Hwf').
  by exists st'.
Qed.

(** The calls a run makes, and how its loop can end. *)
Lemma rules_loop_spec raws idx st calls :
  tables_wf st →
  (rules_loop E idx raws st calls).1
  = calls ++ (argv_of E <$> upto_failure E (rules_of raws))
  ∧ match (rules_loop E idx raws st calls).2 with
    | Done st' => tables_wf st' ∧ upto_failure E (rules_of raws) = rules_of raws
    | Returned code _ => code ≠ 0
    | Raised => False
    end.
Proof.
  revert idx st calls. induction raws as [|raw raws IH]; intros idx st calls Hwf.
  { simpl. by rewrite app_nil_r. }
  unfold rules_of. cbn [omap list_omap]. fold (rules_of raws).
  destruct (rule_of raw) as [rule|] eqn:Hrule.
  - cbn [upto_failure].
    destruct (decide (returncode (exec E (argv_of E rule)) ≠ 0)) as [Hrc|Hrc].
    + by rewrite (rules_loop_step_fail _ _ _ _ _ _ Hrule Hrc).
    + apply dec_stable in Hrc.
      destruct (rules_loop_step_ok _ _ raws idx st calls Hrule Hrc Hwf)
        as (st' & Hwf' & _ & ->).
      destruct (IH (S idx) st' (calls ++ [argv_of E rule]) Hwf') as [-> Hend].
      split; [by rewrite <-app_assoc|].
      destruct (rules_loop E (S idx) raws st' _).2; try done.
      destruct Hend as [? ->]. done.
  - rewrite (rules_loop_step_skip _ _ _ _ _ Hrule). by apply IH.
Qed.

Lemma rules_loop_columns raws idx st calls calls' st' :
  tables_wf st →
  rules_loop E idx raws st calls = (calls', Done st') →
  columns st' = columns st ++ columns_of_rules E (rules_of raws).
Proof.
  unfold columns_of_rules.
  revert idx st calls. induction raws as [|raw raws IH]; intros idx st calls Hwf.
  { cbn [rules_loop]. intros [= _ <-]. by rewrite app_nil_r. }
  unfold rules_of. cbn [omap list_omap]. fold (rules_of raws).
  destruct (rule_of raw) as [rule|] eqn:Hrule.
  - destruct (decide (returncode (exec E (argv_of E rule)) ≠ 0)) as [Hrc|Hrc].
    { by rewrite (rules_loop_step_fail _ _ _ _ _ _ Hrule Hrc). }
    apply dec_stable in Hrc.
    destruct (rules_loop_step_ok _ _ raws idx st calls Hrule Hrc Hwf)
      as (st1 & Hwf1 & Hscan & ->).
    intros ->%IH; [|done].
    rewrite (scan_lines_columns _ _ _ _ Hscan), bind_cons, <-app_assoc. done.
  - rewrite (rules_loop_step_skip _ _ _ _ _ Hrule). by apply IH.
Qed.

(** Running through lines that the parser accepts. *)
Lemma rules_loop_prefix pre rest idx st calls :
  tables_wf st →
  Forall (parser_ok E) (rules_of pre) →
  ∃ st', tables_wf st'
         ∧ rules_loop E idx (pre ++ rest) st calls
           = rules_loop E (idx + length pre) rest st'
               (calls ++ (argv_of E <$> rules_of pre)).
Proof.
  revert idx st calls. induction pre as [|raw pre IH]; intros idx st calls Hwf Hok.
  { exists st. simpl. by rewrite app_nil_r, Nat.add_0_r. }
  unfold rules_of in Hok |- *. cbn [omap list_omap] in Hok |- *.
  fold (rules_of pre) in Hok |- *.
  replace (idx + length (raw :: pre))%nat with (S idx + length pre)%nat
    by (simpl; lia).
  rewrite <-app_comm_cons.
  destruct (rule_of raw) as [rule|] eqn:Hrule.
  - apply Forall_cons in Hok as [Hrc Hok].
    destruct (rules_loop_step_ok _ _ (pre ++ rest) idx st calls Hrule Hrc Hwf)
      as (st1 & Hwf1 & _ & ->).
    destruct (IH (S idx) st1 (calls ++ [argv_of E rule]) Hwf1 Hok) as (st' & Hwf' & ->).
    exists st'. split; [done|]. by rewrite fmap_cons, <-app_assoc.
  - rewrite (rules_loop_step_skip _ _ _ _ _ Hrule). by apply IH.
Qed.

End RulesLoop.

(** The sample run with the strict parser refutes the report as the
    description words it.  Line 4 of the rules reads [  G2: x:y ]; the
    script hands [G2 x:y] to the parser, which returns 3, and the
    diagnostic quotes that rule.  The text of the line, [G2: x:y], occurs
    nowhere in it. *)
Lemma parser_failure_counterexample :
  ¬ failure_reported_as_described elements sample_strict_env.
Proof.
  intros H.
  destruct (H ["# two rules"; ""; "G1: (1 pr_A) AND NOT (1 pr_B)"] "  G2: x:y "
              ["G3: z"] "G2 x:y") as (_ & _ & msg & Hmsg & _ & Hline).
  - reflexivity.
  - reflexivity.
  - vm_compute. repeat constructor.
  - vm_compute. reflexivity.
  - vm_compute. discriminate.
  - assert (Herr : run_err (main elements sample_strict_env)
                   = ["Parser failed (exit 3) for line 4: G2 x:y" +:+ NL
                        +:+ "STDERR:" +:+ NL +:+ "boom"])
      by (vm_compute; reflexivity).
    rewrite Herr in Hmsg. apply list_elem_of_singleton in Hmsg as ->.
    assert (Hclean : clean_line "  G2: x:y " = "G2: x:y") by (vm_compute; reflexivity).
    rewrite Hclean in Hline. apply occurs_in_spec in Hline.
    vm_compute in Hline. discriminate.
Qed.

(** C2, as the script has it.  When the parser returns a nonzero exit
    code for a line, all lines before it having been skipped or accepted,
    the run ends with that exit code, prints nothing to the output
    stream, prints to the error stream one diagnostic that names the
    1-based number of the line and quotes the rule as it was handed to
    the parser (the line without the whitespace around it, its first
    colon and the whitespace around that colon replaced by one space)
    and the parser's error output, and starts the parser for no later
    line. *)
Theorem parser_failure_fails_fast
    (iter_order : gset string → list string) (E : env)
    (pre : list string) (raw : string) (post : list string) (rule : string) :
  parser_exists E = true →
  rules_file E = Some (pre ++ raw :: post) →
  Forall (parser_ok E) (rules_of pre) →
  rule_of raw = Some rule →
  returncode (exec E (argv_of E rule)) ≠ 0 →
  main iter_order E
  = {| run_status := Exit (returncode (exec E (argv_of E rule)));
       run_out := [];
       run_err :=
         ["Parser failed (exit "
            +:+ Py.str_int (returncode (exec E (argv_of E rule)))
            +:+ ") for line " +:+ pretty (S (length pre)) +:+ ": " +:+ rule
            +:+ NL +:+ "STDERR:" +:+ NL +:+ stderr (exec E (argv_of E rule))];
       run_calls := argv_of E <$> (rules_of pre ++ [rule]) |}.
Proof.
  intros Hparser Hfile Hpre Hrule Hrc. unfold main. rewrite Hparser, Hfile. simpl negb.
  cbv iota.
  destruct (rules_loop_prefix E pre (raw :: post) 1 empty_tables []
              empty_tables_wf Hpre) as (st' & _ & ->).
  rewrite (rules_loop_step_fail E _ _ _ _ _ _ Hrule Hrc).
  by rewrite fmap_app.
Qed.

Lemma parser_failure_fails_fast_witness :
  main elements sample_strict_env
  = {| run_status := Exit 3;
       run_out := [];
       run_err := ["Parser failed (exit 3) for line 4: G2 x:y" +:+ NL
                     +:+ "STDERR:" +:+ NL +:+ "boom"];
       run_calls := [["/opt/expressionParser_bl.pl"; "--rule";
                      "G1 (1 pr_A) AND NOT (1 pr_B)"];
                     ["/opt/expressionParser_bl.pl"; "--rule"; "G2 x:y"]] |}.
Proof.
  rewrite (parser_failure_fails_fast elements sample_strict_env
             ["# two rules"; ""; "G1: (1 pr_A) AND NOT (1 pr_B)"]
             "  G2: x:y " ["G3: z"] "G2 x:y").
  - vm_compute. reflexivity.
  - reflexivity.
  - reflexivity.
  - vm_compute. repeat constructor.
  - vm_compute. reflexivity.
  - vm_compute. discriminate.
Defined.

(** C8.  The parser is started once for each line that is neither empty
    nor a comment, in order, up to the first line it rejects, with the
    argument vector [parser, --rule, rule]; a run that ends with exit
    code 0 has passed every rule.  The rule of a line with a colon is the
    text before the first colon and the text behind it, each stripped,
    joined by one space, so later colons stay in the rule; the rule of a
    line without a colon is the line. *)
Theorem rules_are_rewritten_then_passed
    (iter_order : gset string → list string) (E : env) (raws : list string) :
  parser_exists E = true →
  rules_file E = Some raws →
  run_calls (main iter_order E) = argv_of E <$> upto_failure E (rules_of raws)
  ∧ (run_status (main iter_order E) = Exit 0 →
     run_calls (main iter_order E) = argv_of E <$> rules_of raws)
  ∧ ∀ raw,
      (rule_of raw = None ↔ clean_line raw = "" ∨ has_prefix (clean_line raw) "#")
      ∧ (∀ head tail,
           clean_line raw = head +:+ ":" +:+ tail →
           (¬ ∃ a b, head = a +:+ ":" +:+ b) →
           rule_of raw ≠ None →
           rule_of raw = Some (Py.strip head +:+ " " +:+ Py.strip tail))
      ∧ ((¬ ∃ head tail, clean_line raw = head +:+ ":" +:+ tail) →
         rule_of raw ≠ None →
         rule_of raw = Some (clean_line raw)).
Proof.
  intros Hparser Hfile.
  assert (Hnone : ∀ raw, rule_of raw = None ↔ skipped (clean_line raw) = true).
  { intros raw. unfold rule_of. by destruct (skipped (clean_line raw)). }
  assert (Hcolon : ∀ t, (¬ ∃ a b, t = a +:+ ":" +:+ b) → Py.contains ":" t = false).
  { intros t Hno. destruct (Py.contains ":" t) eqn:Hc; [|done].
    apply contains_spec in Hc. done. }
  pose proof (rules_loop_spec E raws 1 empty_tables [] empty_tables_wf) as [Hcalls Hend].
  assert (Hrun : run_calls (main iter_order E)
                 = argv_of E <$> upto_failure E (rules_of raws)).
  { unfold main. rewrite Hparser, Hfile. simpl negb. cbv iota.
    destruct (rules_loop E 1 raws empty_tables []) as [calls [st|code msg|]];
      simpl in *; done. }
  split_and!; [done| |].
  - rewrite Hrun. unfold main. rewrite Hparser, Hfile. simpl negb. cbv iota.
    destruct (rules_loop E 1 raws empty_tables []) as [calls [st|code msg|]];
      simpl in *; [|by intros [= ->]|done].
    intros _. by destruct Hend as [_ ->].
  - intros raw. split_and!.
    + rewrite Hnone. unfold skipped.
      rewrite orb_true_iff, bool_decide_eq_true, startswith_spec. done.
    + intros head tail Hline Hno Hsome. unfold rule_of in *.
      destruct (skipped (clean_line raw)); [done|].
      rewrite Hline. f_equal. apply rewrite_label_colon. by apply Hcolon.
    + intros Hno Hsome. unfold rule_of in *.
      destruct (skipped (clean_line raw)); [done|].
      f_equal. apply rewrite_label_plain. by apply Hcolon.
Qed.

Lemma rules_are_rewritten_then_passed_witness :
  run_calls (main elements (sample_env sample_rules))
  = [["/opt/expressionParser_bl.pl"; "--rule"; "G1 (1 pr_A) AND NOT (1 pr_B)"];
     ["/opt/expressionParser_bl.pl"; "--rule"; "G2 x:y"]]
  ∧ rule_of "  G2: x:y " = Some "G2 x:y".
Proof.
  destruct (rules_are_rewritten_then_passed elements (sample_env sample_rules)
              sample_rules) as (Hcalls & _ & Hrule); [reflexivity..|].
  split.
  - rewrite Hcalls. vm_compute. reflexivity.
  - destruct (Hrule "  G2: x:y ") as (_ & Hcolon & _).
    apply (Hcolon "G2" " x:y").
    + vm_compute. reflexivity.
    + intros (a & b & Hab). apply (f_equal (Py.contains ":")) in Hab.
      rewrite (proj2 (contains_spec ":" (a +:+ ":" +:+ b))) in Hab by (by exists a, b).
      vm_compute in Hab. discriminate.
    + vm_compute. discriminate.
Defined.

(** ** Sorting, and sets whose order of iteration is not fixed *)

Section Sorting.

Implicit Types (l : list string) (s : gset string).

Lemma sorted_perm l : sorted l ≡ₚ l.
Proof. apply merge_sort_Permutation. Qed.

Lemma sorted_ascending l : StronglySorted String.le (sorted l).
Proof. apply (StronglySorted_merge_sort _). Qed.

Lemma sorted_elem l x : x ∈ sorted l ↔ x ∈ l.
Proof. by rewrite sorted_perm. Qed.

Lemma sorted_unique l1 l2 : l1 ≡ₚ l2 → sorted l1 = sorted l2.
Proof.
  intros Hperm. apply (StronglySorted_unique String.le); [apply sorted_ascending..|].
  by rewrite !sorted_perm.
Qed.

Lemma ascending_strict l :
  NoDup l → StronglySorted String.le l → StronglySorted str_lt l.
Proof.
  intros Hnd Hs. induction Hs as [|x l Hs IH Hx]; [constructor|].
  apply NoDup_cons in Hnd as [Hx' Hnd]. constructor; [by apply IH|].
  rewrite Forall_forall in Hx |- *. intros y Hy.
  apply strict_spec_alt. split; [by apply Hx|]. by intros ->.
Qed.

Lemma sorted_strict l : NoDup l → StronglySorted str_lt (sorted l).
Proof.
  intros Hnd. apply ascending_strict; [|apply sorted_ascending].
  by rewrite sorted_perm.
Qed.

Variable iter_order : gset string → list string.
Hypothesis iter_enumerates : enumerates iter_order.

Lemma sorted_set_elem s x : x ∈ sorted_set iter_order s ↔ x ∈ s.
Proof.
  unfold sorted_set. by rewrite sorted_elem, (iter_enumerates s), elem_of_elements.
Qed.

Lemma sorted_set_strict s : StronglySorted str_lt (sorted_set iter_order s).
Proof.
  apply sorted_strict. rewrite (iter_enumerates s). apply NoDup_elements.
Qed.

Lemma sorted_set_NoDup s : NoDup (sorted_set iter_order s).
Proof.
  unfold sorted_set. rewrite sorted_perm, (iter_enumerates s). apply NoDup_elements.
Qed.

Lemma sorted_set_canonical s : sorted_set iter_order s = sorted (elements s).
Proof. apply sorted_unique, iter_enumerates. Qed.

End Sorting.

(** ** The sets of bases *)

Section Bases.

Implicit Types (vars : list string) (v b g : string).

Lemma truthy_Some b : truthy (Some b) = true ↔ b ≠ "".
Proof. destruct b; simpl; naive_solver. Qed.

Lemma collect_bases_elem vars b :
  b ∈ collect_bases vars ↔ b ≠ "" ∧ ∃ v, v ∈ vars ∧ protein_base v = Some b.
Proof.
  unfold collect_bases.
  cut (∀ acc : gset string,
         b ∈ foldl (λ bases v,
                      match protein_base v with
                      | Some b => if truthy (Some b) then bases ∪ {[b]} else bases
                      | None => bases
                      end) acc vars
         ↔ b ∈ acc ∨ (b ≠ "" ∧ ∃ v, v ∈ vars ∧ protein_base v = Some b)).
  { intros H. rewrite H. set_solver. }
  induction vars as [|v vars IH]; intros acc; cbn [foldl].
  { split; [auto|]. intros [?|(_ & v & ?%elem_of_nil & _)]; done. }
  rewrite IH. setoid_rewrite elem_of_cons.
  destruct (protein_base v) as [b'|] eqn:Hv.
  - destruct (truthy (Some b')) eqn:Ht.
    + apply truthy_Some in Ht. rewrite elem_of_union, elem_of_singleton.
      split; [|naive_solver].
      intros [[?| ->]|?]; [by left| |naive_solver]. right. split; [done|]. eauto.
    + apply not_true_iff_false in Ht. rewrite truthy_Some in Ht.
      split; [naive_solver|].
      intros [?|(Hb & w & [->|Hw] & Hbase)]; [by left| |naive_solver].
      rewrite Hv in Hbase. simplify_eq. by destruct Ht.
  - split; [naive_solver|].
    intros [?|(Hb & w & [->|Hw] & Hbase)]; [by left| |naive_solver].
    by rewrite Hv in Hbase.
Qed.

Lemma classify_elem vars :
  (∀ g, g ∈ (classify vars).1 ↔ g +:+ "_AC" ∈ vars)
  ∧ (∀ b, b ∈ (classify vars).2 ↔ b ∈ collect_bases vars).
Proof.
  unfold classify.
  set (f := λ '(gene_bases, protein_bases) v, _ : gset string * gset string).
  cut (∀ acc : gset string * gset string,
         (∀ g, g ∈ (foldl f acc vars).1 ↔ g ∈ acc.1 ∨ g +:+ "_AC" ∈ vars)
         ∧ (∀ b, b ∈ (foldl f acc vars).2 ↔ b ∈ acc.2 ∨ b ∈ collect_bases vars)).
  { intros H. destruct (H (∅, ∅)) as [H1 H2]. split; intros x.
    - rewrite H1. set_solver.
    - rewrite H2. set_solver. }
  induction vars as [|v vars IH]; intros [gs ps].
  { simpl. split; intros x; [rewrite elem_of_nil|]; set_solver. }
  cbn [foldl]. destruct (IH (f (gs, ps) v)) as [IH1 IH2]. clear IH.
  assert (Hcb : ∀ b, b ∈ collect_bases (v :: vars)
                     ↔ (b ≠ "" ∧ protein_base v = Some b) ∨ b ∈ collect_bases vars).
  { intros b. rewrite !collect_bases_elem. setoid_rewrite elem_of_cons. naive_solver. }
  split; intros x.
  - rewrite IH1, elem_of_cons. subst f. cbv beta iota.
    destruct (Py.endswith v "_AC") eqn:Hac.
    + cbn [fst]. rewrite elem_of_union, elem_of_singleton. split.
      * intros [[?| ->]|?]; [by left| |by right; right].
        right; left. symmetry. by apply (endswith_inv v "_AC").
      * intros [?|[<-|?]]; [by left; left| |by right].
        left; right. symmetry. apply (slice_drop_last_app x "_AC").
    + assert (x +:+ "_AC" ≠ v).
      { intros <-. by rewrite endswith_app in Hac. }
      destruct (protein_base v) as [b|]; [destruct (truthy (Some b))|];
        cbn [fst]; naive_solver.
  - rewrite IH2, Hcb. subst f. cbv beta iota.
    destruct (Py.endswith v "_AC") eqn:Hac.
    + cbn [snd]. unfold protein_base. rewrite Hac. naive_solver.
    + destruct (protein_base v) as [b|] eqn:Hb.
      * destruct (truthy (Some b)) eqn:Ht; cbn [snd].
        -- apply truthy_Some in Ht. rewrite elem_of_union, elem_of_singleton.
           naive_solver.
        -- apply not_true_iff_false in Ht. rewrite truthy_Some in Ht.
           naive_solver.
      * cbn [snd]. naive_solver.
Qed.

End Bases.

(** ** Normalizing the protein rows *)

Section Normalize.

Implicit Types (st : tables) (v b : string) (bs : list string).

Lemma add_var_present name st i : var_index st !! name = Some i → add_var name st = st.
Proof. intros H. unfold add_var. by rewrite H. Qed.

Lemma ensure_rows_eq st b :
  ensure_rows st b = add_var ("NOT_pr_" +:+ b) (add_var ("pr_" +:+ b) st).
Proof.
  unfold ensure_rows.
  destruct (var_index st !! ("pr_" +:+ b)) as [i|] eqn:H1.
  - rewrite (add_var_present _ _ _ H1).
    destruct (var_index st !! ("NOT_pr_" +:+ b)) as [j|] eqn:H2; [|done].
    by rewrite (add_var_present _ _ _ H2).
  - destruct (var_index (add_var ("pr_" +:+ b) st) !! ("NOT_pr_" +:+ b)) as [j|] eqn:H2;
      [|done].
    by rewrite (add_var_present _ _ _ H2).
Qed.

Lemma ensure_rows_spec st b :
  tables_wf st →
  tables_wf (ensure_rows st b)
  ∧ columns (ensure_rows st b) = columns st
  ∧ ∃ added,
      all_vars (ensure_rows st b) = all_vars st ++ added
      ∧ (∀ v, v ∈ added → v = "pr_" +:+ b ∨ v = "NOT_pr_" +:+ b)
      ∧ "pr_" +:+ b ∈ all_vars (ensure_rows st b)
      ∧ "NOT_pr_" +:+ b ∈ all_vars (ensure_rows st b).
Proof.
  intros Hwf. rewrite ensure_rows_eq.
  pose proof (add_var_wf ("pr_" +:+ b) st Hwf) as Hwf1.
  split_and!.
  - by apply add_var_wf.
  - by rewrite !add_var_columns.
  - eexists. split_and!.
    + rewrite (add_var_vars _ _ Hwf1), (add_var_vars _ _ Hwf), <-app_assoc. done.
    + intros v. rewrite elem_of_app.
      repeat case_decide; rewrite ?elem_of_nil, ?list_elem_of_singleton; naive_solver.
    + rewrite !add_var_elem by done. auto.
    + rewrite !add_var_elem by done. auto.
Qed.

Lemma ensure_all_spec bs st :
  tables_wf st →
  tables_wf (foldl ensure_rows st bs)
  ∧ columns (foldl ensure_rows st bs) = columns st
  ∧ ∃ added,
      all_vars (foldl ensure_rows st bs) = all_vars st ++ added
      ∧ (∀ v, v ∈ added → ∃ b, b ∈ bs ∧ (v = "pr_" +:+ b ∨ v = "NOT_pr_" +:+ b))
      ∧ (∀ b, b ∈ bs → "pr_" +:+ b ∈ all_vars (foldl ensure_rows st bs)
                        ∧ "NOT_pr_" +:+ b ∈ all_vars (foldl ensure_rows st bs)).
Proof.
  revert st. induction bs as [|b bs IH]; intros st Hwf; cbn [foldl].
  { split_and!; [done..|]. exists []. rewrite app_nil_r.
    split_and!; [done|by intros ? ?%elem_of_nil|by intros ? ?%elem_of_nil]. }
  destruct (ensure_rows_spec st b Hwf) as (Hwf1 & Hc1 & a1 & Hv1 & Ha1 & Hpr & Hnot).
  destruct (IH _ Hwf1) as (Hwf2 & Hc2 & a2 & Hv2 & Ha2 & Hin).
  split_and!; [done|by rewrite Hc2|].
  exists (a1 ++ a2). split_and!.
  - by rewrite Hv2, Hv1, <-app_assoc.
  - intros v [Hv|Hv]%elem_of_app.
    + exists b. split; [apply list_elem_of_here|by apply Ha1].
    + destruct (Ha2 v Hv) as (b' & ? & ?). exists b'.
      split; [by apply list_elem_of_further|done].
  - intros b' [->|Hb']%elem_of_cons; [|by apply Hin].
    rewrite Hv2, !elem_of_app. auto.
Qed.

(** A base never gives rows that look like gene activity rows. *)
Lemma base_rows_not_gene v b :
  protein_base v = Some b → b ≠ "" →
  Py.endswith ("pr_" +:+ b) "_AC" = false
  ∧ Py.endswith ("NOT_pr_" +:+ b) "_AC" = false.
Proof.
  intros [Hac Hv]%protein_base_Some Hb.
  assert (Hshort : ∀ p, Py.endswith (p +:+ ("r_" +:+ b)) "_AC" = true →
                        Py.endswith b "_AC" = true ∨ b = "AC").
  { intros p Hp.
    destruct b as [|c1 [|c2 [|c3 b']]]; [done| | |].
    - exfalso. apply (endswith_app_long p _ "_AC") in Hp; [|simpl; lia].
      cbv [String.append Py.endswith] in Hp. repeat case_decide; simplify_eq.
    - right. apply (endswith_app_long p _ "_AC") in Hp; [|simpl; lia].
      cbv [String.append Py.endswith] in Hp. repeat case_decide; simplify_eq; done.
    - left. rewrite <-app_assoc' in Hp.
      apply (endswith_app_long (p +:+ "r_") _ "_AC") in Hp; [done|simpl; lia]. }
  assert (Hnot : ¬ (Py.endswith b "_AC" = true ∨ b = "AC")).
  { intros [[q ->]%endswith_spec| ->].
    - destruct Hv as [->|[->| ->]]; rewrite <-app_assoc', endswith_app in Hac; done.
    - destruct Hv as [->|[->| ->]]; vm_compute in Hac; done. }
  split.
  - destruct (Py.endswith ("pr_" +:+ b) "_AC") eqn:H; [|done].
    destruct Hnot. by apply (Hshort "p").
  - destruct (Py.endswith ("NOT_pr_" +:+ b) "_AC") eqn:H; [|done].
    destruct Hnot. by apply (Hshort "NOT_p").
Qed.

End Normalize.

(** ** The synthesized columns *)

Section Synthesize.

Implicit Types (st : tables) (v b g : string).

Lemma ex_fold gs st :
  (∀ g, g ∈ gs → is_Some (var_index st !! (g +:+ "_AC"))) →
  columns (foldl ex_step st gs) = columns st ++ (ex_column <$> gs)
  ∧ all_vars (foldl ex_step st gs) = all_vars st
  ∧ var_index (foldl ex_step st gs) = var_index st.
Proof.
  revert st. induction gs as [|g gs IH]; intros st Hin; cbn [foldl].
  { by rewrite app_nil_r. }
  destruct (Hin g) as [i Hi]; [apply list_elem_of_here|].
  unfold ex_step at 2 4 6. rewrite Hi.
  destruct (IH (append_column ("EX_" +:+ g, {[g +:+ "_AC" := -1]}) st))
    as (-> & -> & ->).
  { intros g' Hg'. apply Hin. by apply list_elem_of_further. }
  split_and!; [|done..]. simpl. by rewrite <-app_assoc.
Qed.

Lemma candidates_lookup (idx : gmap string nat) cands (m : gmap string Z) v :
  foldl (λ mapping candidate,
           match idx !! candidate with
           | Some _ => <[candidate := 1]> mapping
           | None => mapping
           end) m cands !! v
  = if decide (v ∈ cands ∧ is_Some (idx !! v)) then Some 1 else m !! v.
Proof.
  revert m. induction cands as [|c cands IH]; intros m; cbn [foldl].
  { rewrite decide_False; [done|]. intros [?%elem_of_nil _]. done. }
  rewrite IH. destruct (decide (v ∈ cands ∧ is_Some (idx !! v))) as [[Hin Hv]|Hno].
  - rewrite decide_True; [done|]. split; [by apply list_elem_of_further|done].
  - destruct (decide (v = c)) as [->|Hne].
    + destruct (idx !! c) as [i|] eqn:Hc.
      * rewrite lookup_insert_eq, decide_True; [done|].
        split; [apply list_elem_of_here|by eexists].
      * rewrite decide_False; [done|]. intros [_ [? ?]]. done.
    + assert (Hm : match idx !! c with
                   | Some _ => <[c := 1]> m
                   | None => m
                   end !! v = m !! v).
      { destruct (idx !! c); [by rewrite lookup_insert_ne|done]. }
      rewrite Hm, decide_False; [done|].
      intros [[?|?]%elem_of_cons ?]; [done|]. by apply Hno.
Qed.

Lemma av_mapping_lookup st b v :
  av_mapping st b !! v
  = if decide (v ∈ ["pr_" +:+ b; "NOT_pr_" +:+ b; "NOT_" +:+ b]
               ∧ is_Some (var_index st !! v))
    then Some 1 else None.
Proof. unfold av_mapping. by rewrite candidates_lookup, lookup_empty. Qed.

Lemma av_mapping_ext st st' b :
  var_index st = var_index st' → av_mapping st b = av_mapping st' b.
Proof. intros H. unfold av_mapping. by rewrite H. Qed.

Lemma av_fold bs st :
  (∀ b, b ∈ bs → is_Some (var_index st !! ("pr_" +:+ b))) →
  columns (foldl av_step st bs) = columns st ++ (av_column st <$> bs)
  ∧ all_vars (foldl av_step st bs) = all_vars st
  ∧ var_index (foldl av_step st bs) = var_index st.
Proof.
  revert st. induction bs as [|b bs IH]; intros st Hin; cbn [foldl].
  { by rewrite app_nil_r. }
  assert (Hne : av_mapping st b ≠ ∅).
  { intros Hempty. apply (f_equal (.!! ("pr_" +:+ b))) in Hempty.
    rewrite av_mapping_lookup, lookup_empty, decide_True in Hempty; [done|].
    split; [apply list_elem_of_here|]. apply Hin, list_elem_of_here. }
  unfold av_step at 2 4 6. rewrite decide_False by done.
  destruct (IH (append_column ("AV_" +:+ b, av_mapping st b) st)) as (-> & -> & ->).
  { intros b' Hb'. apply Hin. by apply list_elem_of_further. }
  split_and!; [|done..]. simpl. rewrite <-app_assoc. do 2 f_equal.
Qed.

Variable iter_order : gset string → list string.
Hypothesis iter_enumerates : enumerates iter_order.

(** After normalization every base has both of its rows. *)
Lemma normalize_spec st :
  tables_wf st →
  tables_wf (normalize iter_order st)
  ∧ columns (normalize iter_order st) = columns st
  ∧ (∃ added,
       all_vars (normalize iter_order st) = all_vars st ++ added
       ∧ ∀ v, v ∈ added →
              ∃ b, b ∈ collect_bases (all_vars st)
                   ∧ (v = "pr_" +:+ b ∨ v = "NOT_pr_" +:+ b))
  ∧ (∀ b, b ∈ collect_bases (all_vars (normalize iter_order st))
          ↔ b ∈ collect_bases (all_vars st))
  ∧ (∀ b, b ∈ collect_bases (all_vars st) →
          "pr_" +:+ b ∈ all_vars (normalize iter_order st)
          ∧ "NOT_pr_" +:+ b ∈ all_vars (normalize iter_order st)).
Proof.
  intros Hwf. unfold normalize.
  destruct (ensure_all_spec (sorted_set iter_order (collect_bases (all_vars st))) st Hwf)
    as (Hwf' & Hcols & added & Hvars & Hadded & Hrows).
  assert (Hadded' : ∀ v, v ∈ added →
            ∃ b, b ∈ collect_bases (all_vars st)
                 ∧ (v = "pr_" +:+ b ∨ v = "NOT_pr_" +:+ b)).
  { intros v Hv. destruct (Hadded v Hv) as (b & Hb & Hvb).
    exists b. by rewrite <-(sorted_set_elem iter_order iter_enumerates). }
  split_and!; [done|done|by exists added| |].
  - intros b. rewrite !collect_bases_elem, Hvars. setoid_rewrite elem_of_app.
    split; [|naive_solver].
    intros (Hb & v & [Hv|Hv] & Hbase); [by eauto|].
    destruct (Hadded' v Hv) as (b0 & Hb0 & Hvb0).
    pose proof Hb0 as (Hb0ne & v0 & Hv0 & Hbase0)%collect_bases_elem.
    destruct (base_rows_not_gene v0 b0 Hbase0 Hb0ne) as [Hpr Hnot].
    assert (b = b0) as ->; [|by eauto].
    destruct Hvb0 as [-> | ->].
    + rewrite (protein_base_pr _ Hpr) in Hbase. by simplify_eq.
    + rewrite (protein_base_not_pr _ Hnot) in Hbase. by simplify_eq.
  - intros b Hb. apply Hrows. by apply (sorted_set_elem iter_order iter_enumerates).
Qed.

(** The shape of the tables when the script starts to print. *)
Lemma finish_spec st :
  tables_wf st →
  all_vars (finish iter_order st) = all_vars (normalize iter_order st)
  ∧ var_index (finish iter_order st) = var_index (normalize iter_order st)
  ∧ columns (finish iter_order st)
    = columns st
      ++ (ex_column <$> gene_bases iter_order st)
      ++ (av_column (normalize iter_order st) <$> protein_bases iter_order st).
Proof.
  intros Hwf.
  destruct (normalize_spec st Hwf) as (Hwfn & Hcols & _ & Hsame & Hrows).
  set (n := normalize iter_order st) in *.
  destruct (classify_elem (all_vars n)) as [Hgene Hprot].
  unfold finish, synthesize, add_av, add_ex. fold n.
  destruct (ex_fold (sorted_set iter_order (classify (all_vars n)).1) n)
    as (Hc1 & Hv1 & Hi1).
  { intros g Hg%(sorted_set_elem iter_order iter_enumerates).
    apply Hwfn. by apply Hgene. }
  set (e := foldl ex_step n _) in *.
  destruct (av_fold (sorted_set iter_order (classify (all_vars n)).2) e)
    as (Hc2 & Hv2 & Hi2).
  { intros b Hb%(sorted_set_elem iter_order iter_enumerates).
    rewrite Hi1. apply Hwfn. apply Hrows. by apply Hsame, Hprot. }
  rewrite Hv2, Hv1, Hi2, Hi1, Hc2, Hc1, Hcols. split_and!; [done..|].
  rewrite <-app_assoc. do 2 f_equal.
  unfold protein_bases. fold n. apply list_fmap_ext. intros _ b _.
  unfold av_column. f_equal. by apply av_mapping_ext.
Qed.

End Synthesize.

(** ** A run that reaches the matrix *)

Section Run.

Variable iter_order : gset string → list string.
Variable E : env.
Implicit Types (st : tables).

Lemma ingested_wf st : ingested E st → tables_wf st.
Proof.
  intros (raws & calls & _ & Hloop).
  pose proof (rules_loop_spec E raws 1 empty_tables [] empty_tables_wf) as [_ Hend].
  rewrite Hloop in Hend. by destruct Hend.
Qed.

Lemma ingested_columns st :
  ingested E st →
  ∃ raws, rules_file E = Some raws
          ∧ columns st = columns_of_rules E (rules_of raws).
Proof.
  intros (raws & calls & Hfile & Hloop). exists raws. split; [done|].
  by rewrite (rules_loop_columns E _ _ _ _ _ _ empty_tables_wf Hloop).
Qed.

Lemma main_success st :
  parser_exists E = true → ingested E st →
  run_status (main iter_order E) = Exit 0
  ∧ run_out (main iter_order E) = emit (finish iter_order st)
  ∧ run_err (main iter_order E) = [].
Proof.
  intros Hparser (raws & calls & Hfile & Hloop).
  unfold main. by rewrite Hparser, Hfile, Hloop.
Qed.

End Run.

Lemma sample_ingested : ingested (sample_env sample_rules) sample_tables.
Proof. exists sample_rules. eexists. split; [reflexivity|]. vm_compute. reflexivity. Qed.

Lemma elements_enumerates : enumerates elements.
Proof. intros s. reflexivity. Qed.

(** ** The emitted matrix *)

(** C7.  The matrix is printed as a header and one line per variable.
    The lines come in strictly ascending order of the variable name.  The
    columns are those collected from the rules, in the order collected
    (rule after rule of the file, line after line of the parser's
    output), then one [EX_] column per gene base in strictly ascending
    order of the base, then one [AV_] column per protein base in strictly
    ascending order of the base.  A line is the variable followed by one
    cell per column: the value of the column's mapping at the variable,
    or 0. *)
Theorem matrix_layout
    (iter_order : gset string → list string) (E : env) (st : tables) :
  enumerates iter_order →
  parser_exists E = true →
  ingested E st →
  let cols := columns (finish iter_order st) in
  let rows := sorted (all_vars (finish iter_order st)) in
  run_out (main iter_order E) = header_line cols :: (row_line cols <$> rows)
  ∧ header_line cols = "variable" +:+ TABs +:+ Py.join TABs cols.*1
  ∧ (∀ v, row_line cols v
          = Py.join TABs (v :: ((λ c, Py.str_int (default 0 (c.2 !! v))) <$> cols)))
  ∧ StronglySorted str_lt rows
  ∧ (∀ v, v ∈ rows ↔ v ∈ all_vars (finish iter_order st))
  ∧ cols = columns st
           ++ (ex_column <$> gene_bases iter_order st)
           ++ (av_column (normalize iter_order st) <$> protein_bases iter_order st)
  ∧ cols.*1 = (columns st).*1
              ++ ((λ g, "EX_" +:+ g) <$> gene_bases iter_order st)
              ++ ((λ b, "AV_" +:+ b) <$> protein_bases iter_order st)
  ∧ StronglySorted str_lt (gene_bases iter_order st)
  ∧ (∀ g, g ∈ gene_bases iter_order st ↔ g +:+ "_AC" ∈ rows)
  ∧ StronglySorted str_lt (protein_bases iter_order st)
  ∧ (∀ b, b ∈ protein_bases iter_order st
          ↔ b ≠ "" ∧ ∃ v, v ∈ rows ∧ protein_base v = Some b)
  ∧ ∃ raws, rules_file E = Some raws
            ∧ columns st = columns_of_rules E (rules_of raws).
Proof.
  intros Hiter Hparser Hst cols rows.
  pose proof (ingested_wf E st Hst) as Hwf.
  destruct (main_success iter_order E st Hparser Hst) as (_ & Hout & _).
  destruct (finish_spec iter_order Hiter st Hwf) as (Hvars & _ & Hcols).
  destruct (normalize_spec iter_order Hiter st Hwf) as (Hwfn & _ & _ & _ & _).
  destruct (classify_elem (all_vars (normalize iter_order st))) as [Hgene Hprot].
  assert (Hrows : ∀ v, v ∈ rows ↔ v ∈ all_vars (normalize iter_order st)).
  { intros v. subst rows. by rewrite sorted_elem, Hvars. }
  split_and!; try done.
  - subst rows. apply sorted_strict. rewrite Hvars. apply Hwfn.
  - intros v. subst rows. apply sorted_elem.
  - subst cols. rewrite Hcols, !fmap_app, <-!list_fmap_compose. done.
  - by apply sorted_set_strict.
  - intros g. unfold gene_bases.
    by rewrite (sorted_set_elem iter_order Hiter), Hgene, Hrows.
  - by apply sorted_set_strict.
  - intros b. unfold protein_bases.
    rewrite (sorted_set_elem iter_order Hiter), Hprot, collect_bases_elem.
    by setoid_rewrite Hrows.
  - by apply ingested_columns.
Qed.

Lemma matrix_layout_witness :
  run_out (main elements (sample_env sample_rules))
  = ["variable" +:+ TABs +:+ "G1" +:+ TABs +:+ "X" +:+ TABs +:+ "EX_A"
       +:+ TABs +:+ "AV_A" +:+ TABs +:+ "AV_B" +:+ TABs +:+ "AV_Q";
     "A_AC" +:+ TABs +:+ "2" +:+ TABs +:+ "0" +:+ TABs +:+ "-1"
       +:+ TABs +:+ "0" +:+ TABs +:+ "0" +:+ TABs +:+ "0";
     "NOT_Q" +:+ TABs +:+ "0" +:+ TABs +:+ "2" +:+ TABs +:+ "0"
       +:+ TABs +:+ "0" +:+ TABs +:+ "0" +:+ TABs +:+ "1";
     "NOT_pr_A" +:+ TABs +:+ "0" +:+ TABs +:+ "0" +:+ TABs +:+ "0"
       +:+ TABs +:+ "1" +:+ TABs +:+ "0" +:+ TABs +:+ "0";
     "NOT_pr_B" +:+ TABs +:+ "0" +:+ TABs +:+ "0" +:+ TABs +:+ "0"
       +:+ TABs +:+ "0" +:+ TABs +:+ "1" +:+ TABs +:+ "0";
     "NOT_pr_Q" +:+ TABs +:+ "0" +:+ TABs +:+ "0" +:+ TABs +:+ "0"
       +:+ TABs +:+ "0" +:+ TABs +:+ "0" +:+ TABs +:+ "1";
     "pr_" +:+ TABs +:+ "0" +:+ TABs +:+ "1" +:+ TABs +:+ "0"
       +:+ TABs +:+ "0" +:+ TABs +:+ "0" +:+ TABs +:+ "0";
     "pr_A" +:+ TABs +:+ "1" +:+ TABs +:+ "0" +:+ TABs +:+ "0"
       +:+ TABs +:+ "1" +:+ TABs +:+ "0" +:+ TABs +:+ "0";
     "pr_B" +:+ TABs +:+ "-1" +:+ TABs +:+ "0" +:+ TABs +:+ "0"
       +:+ TABs +:+ "0" +:+ TABs +:+ "1" +:+ TABs +:+ "0";
     "pr_Q" +:+ TABs +:+ "0" +:+ TABs +:+ "0" +:+ TABs +:+ "0"
       +:+ TABs +:+ "0" +:+ TABs +:+ "0" +:+ TABs +:+ "1"]
  ∧ gene_bases elements sample_tables = ["A"]
  ∧ protein_bases elements sample_tables = ["A"; "B"; "Q"].
Proof.
  destruct (matrix_layout elements (sample_env sample_rules) sample_tables
              elements_enumerates eq_refl sample_ingested)
    as (Hout & _).
  split_and!.
  - rewrite Hout. vm_compute. reflexivity.
  - vm_compute. reflexivity.
  - vm_compute. reflexivity.
Defined.

(** C3.  For every variable [g_AC] of the final variable set, the
    columns appended behind those of the rules hold exactly one column
    labelled [EX_g]; its mapping has the single entry -1 at [g_AC], so
    its cell is -1 on that row and 0 on every other row. *)
Theorem ex_column_single_entry
    (iter_order : gset string → list string) (E : env) (st : tables) (g : string) :
  enumerates iter_order →
  parser_exists E = true →
  ingested E st →
  g +:+ "_AC" ∈ all_vars (finish iter_order st) →
  run_out (main iter_order E) = emit (finish iter_order st)
  ∧ ∃ before after,
      columns (finish iter_order st)
      = columns st ++ before ++ ("EX_" +:+ g, {[g +:+ "_AC" := -1]}) :: after
      ∧ (∀ c, c ∈ before ++ after → c.1 ≠ "EX_" +:+ g)
      ∧ ∀ v, get0 {[g +:+ "_AC" := -1]} v = if decide (v = g +:+ "_AC") then -1 else 0.
Proof.
  intros Hiter Hparser Hst Hg.
  pose proof (ingested_wf E st Hst) as Hwf.
  destruct (main_success iter_order E st Hparser Hst) as (_ & Hout & _).
  destruct (finish_spec iter_order Hiter st Hwf) as (Hvars & _ & Hcols).
  destruct (classify_elem (all_vars (normalize iter_order st))) as [Hgene _].
  split; [done|].
  assert (Hin : g ∈ gene_bases iter_order st).
  { unfold gene_bases. by rewrite (sorted_set_elem iter_order Hiter), Hgene, <-Hvars. }
  pose proof (sorted_set_NoDup iter_order Hiter
                (classify (all_vars (normalize iter_order st))).1) as Hnd.
  fold (gene_bases iter_order st) in Hnd.
  destruct (list_elem_of_split _ _ Hin) as (l1 & l2 & Hsplit).
  rewrite Hsplit in Hnd. apply NoDup_app in Hnd as (_ & Hl1 & [Hl2 _]%NoDup_cons).
  exists (ex_column <$> l1),
    ((ex_column <$> l2)
     ++ (av_column (normalize iter_order st) <$> protein_bases iter_order st)).
  split_and!.
  - rewrite Hcols, Hsplit, fmap_app, fmap_cons, <-!app_assoc. done.
  - intros c. rewrite !elem_of_app, !list_elem_of_fmap.
    intros [(g' & -> & Hg')|[(g' & -> & Hg')|(b & -> & Hb)]]; simpl; intros Heq.
    + apply (inj _) in Heq as ->. apply (Hl1 g Hg'), list_elem_of_here.
    + apply (inj _) in Heq as ->. done.
    + cbv [String.append] in Heq. simplify_eq.
  - intros v. unfold get0. rewrite lookup_singleton.
    destruct (decide (g +:+ "_AC" = v)) as [<-|Hne].
    + by rewrite decide_True.
    + by rewrite decide_False.
Qed.

Lemma ex_column_single_entry_witness :
  ∃ before after,
    columns (finish elements sample_tables)
    = columns sample_tables ++ before ++ ("EX_A", {["A_AC" := -1]}) :: after
    ∧ (∀ c, c ∈ before ++ after → c.1 ≠ "EX_A")
    ∧ get0 {["A_AC" := -1]} "A_AC" = -1
    ∧ get0 {["A_AC" := -1]} "pr_A" = 0.
Proof.
  destruct (ex_column_single_entry elements (sample_env sample_rules) sample_tables "A"
              elements_enumerates eq_refl sample_ingested)
    as (_ & before & after & Hcols & Hothers & Hcell).
  - vm_compute. repeat constructor.
  - exists before, after. split_and!; [exact Hcols|exact Hothers|..].
    + reflexivity.
    + reflexivity.
Defined.

(** C4.  The loop that appends the [AV_] columns skips none: for every
    protein base [b] of the final variable set the mapping built for it
    holds +1 at [pr_b] and at [NOT_pr_b], so it is never empty, and the
    loop appends one column [AV_b] per base. *)
Theorem av_column_never_skipped
    (iter_order : gset string → list string) (E : env) (st : tables) :
  enumerates iter_order →
  parser_exists E = true →
  ingested E st →
  run_out (main iter_order E) = emit (finish iter_order st)
  ∧ (∀ b, b ∈ protein_bases iter_order st
          ↔ b ≠ "" ∧ ∃ v, v ∈ all_vars (finish iter_order st)
                          ∧ protein_base v = Some b)
  ∧ (∀ b, b ∈ protein_bases iter_order st →
          av_mapping (add_ex iter_order (normalize iter_order st)) b !! ("pr_" +:+ b) = Some 1
          ∧ av_mapping (add_ex iter_order (normalize iter_order st)) b
              !! ("NOT_pr_" +:+ b) = Some 1
          ∧ av_mapping (add_ex iter_order (normalize iter_order st)) b ≠ ∅
          ∧ av_step (add_ex iter_order (normalize iter_order st)) b
            = append_column
                ("AV_" +:+ b, av_mapping (add_ex iter_order (normalize iter_order st)) b)
                (add_ex iter_order (normalize iter_order st)))
  ∧ columns (finish iter_order st)
    = columns (add_ex iter_order (normalize iter_order st))
      ++ ((λ b, ("AV_" +:+ b,
                 av_mapping (add_ex iter_order (normalize iter_order st)) b))
            <$> protein_bases iter_order st).
Proof.
  intros Hiter Hparser Hst.
  pose proof (ingested_wf E st Hst) as Hwf.
  destruct (main_success iter_order E st Hparser Hst) as (_ & Hout & _).
  destruct (finish_spec iter_order Hiter st Hwf) as (Hvars & _ & Hcols).
  destruct (normalize_spec iter_order Hiter st Hwf) as (Hwfn & Hcn & _ & Hsame & Hrows).
  set (n := normalize iter_order st) in *.
  destruct (classify_elem (all_vars n)) as [Hgene Hprot].
  destruct (ex_fold (sorted_set iter_order (classify (all_vars n)).1) n)
    as (Hc1 & Hv1 & Hi1).
  { intros g Hg%(sorted_set_elem iter_order Hiter). apply Hwfn. by apply Hgene. }
  fold (add_ex iter_order n) in Hc1, Hv1, Hi1.
  assert (Hbase : ∀ b, b ∈ protein_bases iter_order st ↔ b ∈ collect_bases (all_vars n)).
  { intros b. unfold protein_bases. fold n.
    by rewrite (sorted_set_elem iter_order Hiter), Hprot. }
  assert (Hmap : ∀ b, b ∈ protein_bases iter_order st →
            av_mapping (add_ex iter_order n) b !! ("pr_" +:+ b) = Some 1
            ∧ av_mapping (add_ex iter_order n) b !! ("NOT_pr_" +:+ b) = Some 1).
  { intros b [Hpr Hnot]%Hbase%Hsame%Hrows.
    rewrite !av_mapping_lookup, Hi1.
    rewrite !decide_True; [done| |].
    - split; [|by apply Hwfn]. apply list_elem_of_further, list_elem_of_here.
    - split; [|by apply Hwfn]. apply list_elem_of_here. }
  assert (Hne : ∀ b, b ∈ protein_bases iter_order st →
            av_mapping (add_ex iter_order n) b ≠ ∅).
  { intros b [Hpr _]%Hmap Hempty. by rewrite Hempty, lookup_empty in Hpr. }
  split_and!; [done| | |].
  - intros b. rewrite Hbase, collect_bases_elem, Hvars. done.
  - intros b Hb. destruct (Hmap b Hb) as [Hpr Hnot].
    split_and!; [done|done|by apply Hne|].
    unfold av_step. rewrite decide_False; [done|by apply Hne].
  - rewrite Hcols, Hc1, Hcn, <-app_assoc. do 2 f_equal.
    apply list_fmap_ext. intros _ b _. unfold av_column. f_equal.
    by apply av_mapping_ext.
Qed.

Lemma av_column_never_skipped_witness :
  protein_bases elements sample_tables = ["A"; "B"; "Q"]
  ∧ ∀ b, b ∈ protein_bases elements sample_tables →
         av_mapping (add_ex elements (normalize elements sample_tables)) b
           !! ("pr_" +:+ b) = Some 1
         ∧ av_mapping (add_ex elements (normalize elements sample_tables)) b
             !! ("NOT_pr_" +:+ b) = Some 1
         ∧ av_mapping (add_ex elements (normalize elements sample_tables)) b ≠ ∅.
Proof.
  destruct (av_column_never_skipped elements (sample_env sample_rules) sample_tables
              elements_enumerates eq_refl sample_ingested)
    as (_ & _ & Hmap & _).
  split.
  - vm_compute. reflexivity.
  - intros b Hb. destruct (Hmap b Hb) as (Hpr & Hnot & Hne & _). auto.
Defined.

(** ** The rows of a protein base *)

(** The sample run refutes both parts: its variable [pr_] has the empty
    base and no row [NOT_pr_] appears, and the rows [pr_Q] and [NOT_pr_Q],
    which no rule refers to, hold 1 in the column [AV_Q]. *)
Lemma base_rows_counterexample :
  ¬ base_rows_present_as_described elements (sample_env sample_rules)
  ∧ ¬ unreferenced_rows_zero_as_described elements (sample_env sample_rules).
Proof.
  split.
  - intros H.
    destruct (H sample_tables "pr_" "" sample_ingested) as [_ Hnot].
    + vm_compute. repeat constructor.
    + reflexivity.
    + assert (Hno : "NOT_pr_" ∉ all_vars (finish elements sample_tables)).
      { apply (bool_decide_unpack _). vm_compute. exact I. }
      by apply Hno.
  - intros H.
    assert (Hno : ¬ Forall (λ c : string * gmap string Z,
                              get0 c.2 "pr_Q" = 0 ∧ get0 c.2 "NOT_pr_Q" = 0)
                      (columns (finish elements sample_tables))).
    { apply (bool_decide_unpack _). vm_compute. exact I. }
    apply Hno, (H sample_tables "NOT_Q" "Q" sample_ingested).
    + vm_compute. repeat constructor.
    + reflexivity.
    + apply Forall_forall. apply (bool_decide_unpack _). vm_compute. exact I.
Qed.

(** C1, as the script has it.  For every base that is not empty and
    that [protein_base] derives from an observed variable, the rows
    [pr_b] and [NOT_pr_b] are both in the printed matrix.  Such a row
    holds 0 in every column of the rules that does not refer to it and 0
    in every [EX_] column, and it holds +1 in the column [AV_b], which is
    always there. *)
Theorem base_rows_present
    (iter_order : gset string → list string) (E : env) (st : tables)
    (v b : string) :
  enumerates iter_order →
  parser_exists E = true →
  ingested E st →
  v ∈ all_vars st →
  protein_base v = Some b →
  b ≠ "" →
  columns (finish iter_order st)
  = columns st
    ++ (ex_column <$> gene_bases iter_order st)
    ++ (av_column (normalize iter_order st) <$> protein_bases iter_order st)
  ∧ b ∈ protein_bases iter_order st
  ∧ ∀ r, r ∈ ["pr_" +:+ b; "NOT_pr_" +:+ b] →
         r ∈ all_vars (finish iter_order st)
         ∧ row_line (columns (finish iter_order st)) r ∈ run_out (main iter_order E)
         ∧ (∀ c, c ∈ columns st → c.2 !! r = None → get0 c.2 r = 0)
         ∧ (∀ g, g ∈ gene_bases iter_order st → get0 (ex_column g).2 r = 0)
         ∧ get0 (av_column (normalize iter_order st) b).2 r = 1.
Proof.
  intros Hiter Hparser Hst Hv Hbase Hb.
  pose proof (ingested_wf E st Hst) as Hwf.
  destruct (main_success iter_order E st Hparser Hst) as (_ & Hout & _).
  destruct (finish_spec iter_order Hiter st Hwf) as (Hvars & _ & Hcols).
  destruct (normalize_spec iter_order Hiter st Hwf) as (Hwfn & _ & _ & Hsame & Hrows).
  destruct (classify_elem (all_vars (normalize iter_order st))) as [_ Hprot].
  destruct (base_rows_not_gene v b Hbase Hb) as [Hpr_ac Hnot_ac].
  assert (Hin : b ∈ collect_bases (all_vars st)).
  { apply collect_bases_elem. eauto. }
  destruct (Hrows b Hin) as [Hpr Hnot].
  split_and!; [done| |].
  { unfold protein_bases.
    by rewrite (sorted_set_elem iter_order Hiter), Hprot, Hsame. }
  intros r Hr.
  assert (Hrow : r ∈ all_vars (normalize iter_order st)
                 ∧ Py.endswith r "_AC" = false).
  { apply elem_of_cons in Hr as [->|[->|?%elem_of_nil]%elem_of_cons]; done. }
  destruct Hrow as [Hrow Hac].
  split_and!.
  - by rewrite Hvars.
  - rewrite Hout. unfold emit. apply list_elem_of_further, list_elem_of_fmap_2.
    by rewrite sorted_elem, Hvars.
  - intros c _ Hc. unfold get0. by rewrite Hc.
  - intros g _. unfold ex_column, get0. cbn [snd].
    rewrite lookup_singleton_ne; [done|].
    intros <-. by rewrite endswith_app in Hac.
  - unfold av_column, get0. cbn [snd]. rewrite av_mapping_lookup, decide_True; [done|].
    split; [|by apply Hwfn].
    apply elem_of_cons in Hr as [->|[->|?%elem_of_nil]%elem_of_cons]; [..|done].
    + apply list_elem_of_here.
    + apply list_elem_of_further, list_elem_of_here.
Qed.

Lemma base_rows_present_witness :
  (columns (finish elements sample_tables)).*1
  = ["G1"; "X"; "EX_A"; "AV_A"; "AV_B"; "AV_Q"]
  ∧ "pr_Q" ∈ all_vars (finish elements sample_tables)
  ∧ "NOT_pr_Q" ∈ all_vars (finish elements sample_tables)
  ∧ "pr_Q" +:+ TABs +:+ "0" +:+ TABs +:+ "0" +:+ TABs +:+ "0"
      +:+ TABs +:+ "0" +:+ TABs +:+ "0" +:+ TABs +:+ "1"
    ∈ run_out (main elements (sample_env sample_rules)).
Proof.
  destruct (base_rows_present elements (sample_env sample_rules) sample_tables
              "NOT_Q" "Q" elements_enumerates eq_refl sample_ingested)
    as (Hcols & _ & Hrows).
  - vm_compute. repeat constructor.
  - reflexivity.
  - discriminate.
  - destruct (Hrows "pr_Q") as (Hpr & Hline & _); [repeat constructor|].
    destruct (Hrows "NOT_pr_Q") as (Hnot & _); [repeat constructor|].
    split_and!; [|exact Hpr|exact Hnot|exact Hline].
    rewrite Hcols. vm_compute. reflexivity.
Defined.

(** C10.  The variables [pr_], [NOT_pr_] and [NOT_] have the empty string
    as their base, and the script treats the empty base as no base: it is
    in neither set of bases, normalization adds no row [pr_] or
    [NOT_pr_], and none of the appended columns is labelled [AV_]. *)
Theorem empty_base_is_no_base
    (iter_order : gset string → list string) (E : env) (st : tables) :
  enumerates iter_order →
  parser_exists E = true →
  ingested E st →
  (protein_base "pr_" = Some ""
   ∧ protein_base "NOT_pr_" = Some ""
   ∧ protein_base "NOT_" = Some "")
  ∧ ("" ∉ collect_bases (all_vars st))
  ∧ ("" ∉ protein_bases iter_order st)
  ∧ (∃ added,
       all_vars (finish iter_order st) = all_vars st ++ added
       ∧ ("pr_" ∉ added) ∧ ("NOT_pr_" ∉ added))
  ∧ (∃ appended,
       columns (finish iter_order st) = columns st ++ appended
       ∧ ∀ c, c ∈ appended → c.1 ≠ "AV_")
  ∧ run_out (main iter_order E) = emit (finish iter_order st).
Proof.
  intros Hiter Hparser Hst.
  pose proof (ingested_wf E st Hst) as Hwf.
  destruct (main_success iter_order E st Hparser Hst) as (_ & Hout & _).
  destruct (finish_spec iter_order Hiter st Hwf) as (Hvars & _ & Hcols).
  destruct (normalize_spec iter_order Hiter st Hwf)
    as (_ & _ & (added & Hadd & Hadded) & Hsame & _).
  destruct (classify_elem (all_vars (normalize iter_order st))) as [_ Hprot].
  assert (Hempty : ∀ vars, "" ∉ collect_bases vars).
  { intros vars [Hne _]%collect_bases_elem. done. }
  split_and!; [done|done|done|apply Hempty| | | |done].
  - unfold protein_bases. rewrite (sorted_set_elem iter_order Hiter), Hprot.
    apply Hempty.
  - exists added. rewrite Hvars. split_and!; [done| |].
    + intros (b & Hb & [Heq|Heq])%Hadded.
      * apply (inj (String.app "pr_") "" b) in Heq as <-. by apply Hempty in Hb.
      * cbv [String.append] in Heq. simplify_eq.
    + intros (b & Hb & [Heq|Heq])%Hadded.
      * cbv [String.append] in Heq. simplify_eq.
      * apply (inj (String.app "NOT_pr_") "" b) in Heq as <-. by apply Hempty in Hb.
  - eexists. split; [exact Hcols|].
    intros c [(g & -> & _)%list_elem_of_fmap|(b & -> & Hb)%list_elem_of_fmap]%elem_of_app;
      simpl; intros Heq.
    + cbv [String.append] in Heq. simplify_eq.
    + apply (inj (String.app "AV_") b "") in Heq as ->.
      unfold protein_bases in Hb.
      rewrite (sorted_set_elem iter_order Hiter), Hprot in Hb. by apply Hempty in Hb.
Qed.

Lemma empty_base_is_no_base_witness :
  "pr_" ∈ all_vars sample_tables
  ∧ protein_base "pr_" = Some ""
  ∧ ("" ∉ protein_bases elements sample_tables)
  ∧ all_vars (finish elements sample_tables)
    = all_vars sample_tables
      ++ ["NOT_pr_A"; "NOT_pr_B"; "pr_Q"; "NOT_pr_Q"].
Proof.
  destruct (empty_base_is_no_base elements (sample_env sample_rules) sample_tables
              elements_enumerates eq_refl sample_ingested)
    as ((Hpr & _) & _ & Hnone & _).
  split_and!; [|exact Hpr|exact Hnone|].
  - vm_compute. repeat constructor.
  - vm_compute. reflexivity.
Defined.

(** ** Two runs *)

Section TwoRuns.

Variables (order1 order2 : gset string → list string).
Hypothesis order1_enumerates : enumerates order1.
Hypothesis order2_enumerates : enumerates order2.

Lemma sorted_set_indep s : sorted_set order1 s = sorted_set order2 s.
Proof.
  by rewrite (sorted_set_canonical order1 order1_enumerates),
             (sorted_set_canonical order2 order2_enumerates).
Qed.

Lemma finish_indep st : finish order1 st = finish order2 st.
Proof.
  unfold finish, synthesize, add_av, add_ex, normalize.
  by rewrite !sorted_set_indep.
Qed.

Variables (E1 E2 : env).
Hypothesis surroundings : same_surroundings E1 E2.

Lemma rules_loop_indep raws idx st calls :
  rules_loop E1 idx raws st calls = rules_loop E2 idx raws st calls.
Proof.
  destruct surroundings as (Hpath & _ & _ & _ & Hexec).
  revert idx st calls. induction raws as [|raw raws IH]; intros idx st calls;
    cbn [rules_loop]; [done|].
  destruct (skipped (clean_line raw)); [apply IH|].
  unfold run_parser. rewrite Hpath, Hexec.
  destruct (decide (returncode _ ≠ 0)); [done|].
  destruct (scan_lines _ false st); [apply IH|done].
Qed.

Lemma main_indep : main order1 E1 = main order2 E2.
Proof.
  pose proof surroundings as (Hpath & Hexists & Hrules & Hfile & _).
  unfold main. rewrite Hpath, Hexists, Hrules, Hfile.
  destruct (parser_exists E2); [|done]. simpl negb. cbv iota.
  destruct (rules_file E2) as [raws|]; [|done].
  rewrite rules_loop_indep.
  destruct (rules_loop E2 1 raws empty_tables []) as [calls [st|code msg|]];
    [|done..].
  by rewrite finish_indep.
Qed.

End TwoRuns.

(** C9.  Two runs that find the same files and a parser of the same
    behaviour end alike in every respect, exit code, output and
    diagnostics, whatever the order in which each of them happens to
    iterate over its sets. *)
Theorem runs_are_reproducible
    (order1 order2 : gset string → list string) (E1 E2 : env) :
  enumerates order1 →
  enumerates order2 →
  same_surroundings E1 E2 →
  main order1 E1 = main order2 E2
  ∧ run_out (main order1 E1) = run_out (main order2 E2).
Proof.
  intros H1 H2 HE. by rewrite (main_indep order1 order2 H1 H2 E1 E2 HE).
Qed.

Lemma runs_are_reproducible_witness :
  main elements (sample_env sample_rules)
  = main (λ s, reverse (elements s)) (sample_env sample_rules).
Proof.
  apply (runs_are_reproducible elements (λ s, reverse (elements s))
           (sample_env sample_rules) (sample_env sample_rules)).
  - exact elements_enumerates.
  - intros s. apply reverse_Permutation.
  - repeat split.
Defined.

(** * Further properties of the script *)

(** ** What every step of the script preserves *)

(** A property of the tables that registering a variable and appending
    a column preserve is preserved by every loop of the script.  [N] and
    [L] bound the names and the labels the loops over the rules add. *)
Section Preservation.

Variable P : tables → Prop.
Variables (N L : string → Prop).
Hypothesis P_add_var : ∀ name st, N name → P st → P (add_var name st).
Hypothesis P_append : ∀ c st, L c.1 → P st → P (append_column c st).

Lemma pairs_loop_preserves pairs (m m' : gmap string Z) st st' :
  Forall N pairs.*2 →
  pairs_loop pairs m st = Some (m', st') → P st → P st'.
Proof.
  revert m st. induction pairs as [|[c w] pairs IH]; intros m st HN; cbn [pairs_loop].
  { by intros [= _ <-]. }
  apply Forall_cons in HN as [Hw HN].
  destruct (Py.int c); [|done]. intros Hloop HP.
  eapply IH; [done..|]. by apply P_add_var.
Qed.

Hypothesis N_pairs : ∀ eq, Forall N (Re.findall pair_re eq).*2.
Hypothesis L_label : ∀ s m, Re.match_ label_line_re s = Some m → L (Re.group m 1).

Lemma scan_lines_preserves lines capturing st st' :
  scan_lines lines capturing st = Some st' → P st → P st'.
Proof.
  revert capturing st. induction lines as [|out_line rest IH]; intros capturing st;
    cbn [scan_lines].
  { by intros [= <-]. }
  destruct (decide (Py.strip out_line = "PRINTING RULES:")); [by apply IH|].
  destruct (negb capturing); [by apply IH|].
  destruct (Re.match_ label_line_re (Py.strip out_line)) as [m|] eqn:Hm; [|by apply IH].
  cbv zeta. pose proof (N_pairs (Re.group m 2)) as HN.
  destruct (Re.findall pair_re (Re.group m 2)) as [|p pairs]; [by apply IH|].
  destruct (pairs_loop (p :: pairs) ∅ st) as [[mapping st1]|] eqn:Hloop; [|done].
  intros Hscan HP. eapply IH; [done|].
  apply P_append; [by eapply L_label|]. by eapply pairs_loop_preserves.
Qed.

Lemma rules_loop_preserves E raws idx st calls calls' st' :
  rules_loop E idx raws st calls = (calls', Done st') → P st → P st'.
Proof.
  revert idx st calls. induction raws as [|raw raws IH]; intros idx st calls;
    cbn [rules_loop].
  { by intros [= _ <-]. }
  destruct (skipped (clean_line raw)); [by apply IH|].
  unfold run_parser. destruct (decide (returncode _ ≠ 0)); [done|].
  destruct (scan_lines _ false st) as [st1|] eqn:Hscan; [|done].
  intros Hloop HP. eapply IH; [done|]. by eapply scan_lines_preserves.
Qed.

End Preservation.

Section PreservationFinish.

Variable P : tables → Prop.
Hypothesis P_add_var : ∀ name st, P st → P (add_var name st).
Hypothesis P_append : ∀ c st, P st → P (append_column c st).

Lemma foldl_preserves (step : tables → string → tables) bs st :
  (∀ st b, P st → P (step st b)) → P st → P (foldl step st bs).
Proof.
  intros Hstep. revert st. induction bs as [|b bs IH]; intros st HP; [done|].
  cbn [foldl]. by apply IH, Hstep.
Qed.

Lemma finish_preserves iter_order st : P st → P (finish iter_order st).
Proof.
  intros HP. unfold finish, synthesize, add_av, add_ex, normalize.
  repeat apply foldl_preserves; try done.
  - intros st1 b HP1. unfold av_step. case_decide; [done|by apply P_append].
  - intros st1 g HP1. unfold ex_step.
    destruct (var_index st1 !! _); [by apply P_append|done].
  - intros st1 b HP1. rewrite ensure_rows_eq. by do 2 apply P_add_var.
Qed.

Lemma reachable_preserves iter_order E st :
  ingested E st → P empty_tables → P st ∧ P (finish iter_order st).
Proof.
  intros (raws & calls & _ & Hloop) HP.
  assert (P st); [|split; [done|by apply finish_preserves]].
  apply (rules_loop_preserves P (λ _, True) (λ _, True)
           (λ name st1 _, P_add_var name st1) (λ c st1 _, P_append c st1)
           (λ eq, Forall_true _ _ (λ _, I)) (λ _ _ _, I)
           E raws 1 empty_tables [] calls st Hloop HP).
Qed.

End PreservationFinish.

(** ** The index and the order of the variables *)

Section Index.

Implicit Types (st : tables).

Lemma add_var_index_is_position name st :
  index_is_position st → index_is_position (add_var name st).
Proof.
  intros Hidx. unfold add_var.
  destruct (var_index st !! name) as [j|] eqn:Hname; [done|].
  intros v i. cbn [var_index all_vars]. split.
  - destruct (decide (name = v)) as [->|Hne].
    + rewrite lookup_insert_eq. intros [= <-].
      by rewrite list_lookup_middle.
    + rewrite lookup_insert_ne by done. intros Hv%Hidx.
      rewrite lookup_app_l; [done|]. by eapply lookup_lt_Some.
  - intros Hv. destruct (decide (i < length (all_vars st))%nat) as [Hlt|Hge].
    + rewrite lookup_app_l in Hv by done. apply Hidx in Hv.
      rewrite lookup_insert_ne; [done|]. intros ->. congruence.
    + rewrite lookup_app_r in Hv by lia.
      apply list_lookup_singleton_Some in Hv as [Hi <-].
      rewrite lookup_insert_eq. f_equal. lia.
Qed.

Lemma add_var_extends st0 name st : extends st0 st → extends st0 (add_var name st).
Proof.
  intros (Hvars & Hcols & Hidx). unfold add_var.
  destruct (var_index st !! name) eqn:Hname; [done|].
  split_and!; cbn [all_vars columns var_index]; [by apply prefix_app_r|done|].
  etrans; [done|]. by apply insert_subseteq.
Qed.

Lemma append_column_extends st0 c st : extends st0 st → extends st0 (append_column c st).
Proof.
  intros (Hvars & Hcols & Hidx). split_and!; [done| |done].
  cbn [columns append_column]. by apply prefix_app_r.
Qed.

End Index.

(** X1.  In the tables a run collects, and in those it prints, the index
    maps every variable to its place in the list of variables: looking a
    variable up gives the position at which the list holds it, and every
    position of the list is the index of its variable. *)
Theorem index_matches_position
    (iter_order : gset string → list string) (E : env) (st : tables) :
  ingested E st →
  index_is_position st ∧ index_is_position (finish iter_order st).
Proof.
  intros Hst.
  apply (reachable_preserves index_is_position add_var_index_is_position
           (λ c st1 H, H) iter_order E st Hst).
  intros v i. simpl. rewrite lookup_empty, lookup_nil. done.
Qed.

Lemma index_matches_position_witness :
  index_is_position (finish elements sample_tables)
  ∧ var_index (finish elements sample_tables) !! "NOT_pr_Q" = Some 8%nat
  ∧ all_vars (finish elements sample_tables) !! 8%nat = Some "NOT_pr_Q".
Proof.
  destruct (index_matches_position elements (sample_env sample_rules) sample_tables
              sample_ingested) as [_ Hidx].
  split; [exact Hidx|]. split; [|apply Hidx]; vm_compute; reflexivity.
Defined.

(** X2.  The loop over the rules and the steps behind it only ever add
    to the tables: the variables and the columns collected so far stay a
    prefix of the later lists, and a variable keeps the index it was
    given. *)
Theorem tables_only_grow
    (iter_order : gset string → list string) (E : env)
    (idx : nat) (raws : list string) (st : tables) (calls calls' : list (list string))
    (st' : tables) :
  rules_loop E idx raws st calls = (calls', Done st') →
  extends st st' ∧ extends st (finish iter_order st').
Proof.
  intros Hloop.
  assert (Hext : extends st st').
  { apply (rules_loop_preserves (extends st) (λ _, True) (λ _, True)
             (λ name st1 _, add_var_extends st name st1)
             (λ c st1 _, append_column_extends st c st1)
             (λ eq, Forall_true _ _ (λ _, I)) (λ _ _ _, I)
             E raws idx st calls calls' st' Hloop).
    done. }
  split; [done|]. apply (finish_preserves (extends st)); [| |done].
  - intros name st1. apply add_var_extends.
  - intros c st1. apply append_column_extends.
Qed.

Lemma tables_only_grow_witness :
  extends
    {| columns := [("G1", {["pr_A" := 1; "pr_B" := -1; "A_AC" := 2]})];
       all_vars := ["pr_A"; "pr_B"; "A_AC"];
       var_index := {["pr_A" := 0%nat; "pr_B" := 1%nat; "A_AC" := 2%nat]} |}
    sample_tables
  ∧ extends
      {| columns := [("G1", {["pr_A" := 1; "pr_B" := -1; "A_AC" := 2]})];
         all_vars := ["pr_A"; "pr_B"; "A_AC"];
         var_index := {["pr_A" := 0%nat; "pr_B" := 1%nat; "A_AC" := 2%nat]} |}
      (finish elements sample_tables).
Proof.
  apply (tables_only_grow elements (sample_env sample_rules) 4 ["  G2: x:y "] _
           [] [["/opt/expressionParser_bl.pl"; "--rule"; "G2 x:y"]]).
  vm_compute. reflexivity.
Defined.

(** ** How a run ends *)

Section Ending.

Variable E : env.
Implicit Types (st : tables) (raws : list string).

Lemma rules_loop_done raws idx st calls calls' st' :
  tables_wf st →
  rules_loop E idx raws st calls = (calls', Done st') →
  Forall (parser_ok E) (rules_of raws).
Proof.
  revert idx st calls. induction raws as [|raw raws IH]; intros idx st calls Hwf.
  { intros _. constructor. }
  unfold rules_of. cbn [omap list_omap]. fold (rules_of raws).
  destruct (rule_of raw) as [rule|] eqn:Hrule.
  - destruct (decide (returncode (exec E (argv_of E rule)) ≠ 0)) as [Hrc|Hrc].
    { by rewrite (rules_loop_step_fail _ _ _ _ _ _ _ Hrule Hrc). }
    apply dec_stable in Hrc.
    destruct (rules_loop_step_ok _ _ _ raws idx st calls Hrule Hrc Hwf)
      as (st1 & Hwf1 & _ & ->).
    intros Hloop. constructor; [done|]. by eapply IH.
  - rewrite (rules_loop_step_skip _ _ _ _ _ _ Hrule). by apply IH.
Qed.

Lemma rules_loop_all_ok raws idx st calls :
  tables_wf st →
  Forall (parser_ok E) (rules_of raws) →
  ∃ calls' st', rules_loop E idx raws st calls = (calls', Done st').
Proof.
  intros Hwf Hok.
  destruct (rules_loop_prefix E raws [] idx st calls Hwf Hok) as (st' & _ & Hloop).
  rewrite app_nil_r in Hloop. rewrite Hloop. cbn [rules_loop]. eauto.
Qed.

End Ending.

(** X3.  Whenever a run returns, its exit code is 0 exactly when the
    parser script and the rules file exist and the parser accepts every
    rule of the file: code 0 is returned for nothing less, and a code
    other than 0 only for a missing file or a rejected rule. *)
Theorem exit_zero_iff_all_accepted
    (iter_order : gset string → list string) (E : env) (c : Z) :
  run_status (main iter_order E) = Exit c →
  c = 0
  ↔ parser_exists E = true
    ∧ ∃ raws, rules_file E = Some raws ∧ Forall (parser_ok E) (rules_of raws).
Proof.
  unfold main. destruct (parser_exists E); cbn [negb]; [|naive_solver].
  destruct (rules_file E) as [raws|]; [|naive_solver].
  destruct (rules_loop E 1 raws empty_tables []) as [calls [st|code msg|]] eqn:Hloop;
    cbn [run_status]; intros Hc; [| |done]; injection Hc as <-.
  - split; [intros _|done]. split; [done|]. exists raws. split; [done|].
    by eapply rules_loop_done; [apply empty_tables_wf|].
  - split.
    + intros ->. exfalso.
      pose proof (rules_loop_spec E raws 1 empty_tables [] empty_tables_wf) as [_ Hend].
      rewrite Hloop in Hend. cbn [snd] in Hend. done.
    + intros (_ & raws' & [= <-] & Hok).
      destruct (rules_loop_all_ok E raws 1 empty_tables [] empty_tables_wf Hok)
        as (calls' & st' & Hdone). congruence.
Qed.

Lemma exit_zero_iff_all_accepted_witness :
  run_status (main elements (sample_env sample_failing_rules)) = Exit 3
  ∧ ¬ (parser_exists (sample_env sample_failing_rules) = true
       ∧ ∃ raws, rules_file (sample_env sample_failing_rules) = Some raws
                 ∧ Forall (parser_ok (sample_env sample_failing_rules))
                     (rules_of raws)).
Proof.
  assert (Hrun : run_status (main elements (sample_env sample_failing_rules)) = Exit 3)
    by (vm_compute; reflexivity).
  split; [exact Hrun|].
  intros Hall.
  apply (exit_zero_iff_all_accepted elements (sample_env sample_failing_rules) 3 Hrun)
    in Hall.
  discriminate Hall.
Defined.

(** X4.  Whenever a run returns, it has printed to one stream only.
    With exit code 0 it has printed the matrix of the collected tables
    to the output stream and nothing to the error stream; with any other
    code it has printed nothing to the output stream and exactly one
    diagnostic to the error stream. *)
Theorem matrix_or_diagnostic
    (iter_order : gset string → list string) (E : env) (c : Z) :
  run_status (main iter_order E) = Exit c →
  (c = 0
   ∧ run_err (main iter_order E) = []
   ∧ ∃ st, ingested E st
           ∧ run_out (main iter_order E) = emit (finish iter_order st))
  ∨ (c ≠ 0
     ∧ run_out (main iter_order E) = []
     ∧ ∃ msg, run_err (main iter_order E) = [msg]).
Proof.
  unfold ingested, main. destruct (parser_exists E); cbn [negb].
  2:{ intros [= <-]. right. split_and!; [done..|]. by eexists. }
  destruct (rules_file E) as [raws|].
  2:{ intros [= <-]. right. split_and!; [done..|]. by eexists. }
  pose proof (rules_loop_spec E raws 1 empty_tables [] empty_tables_wf) as [_ Hend].
  destruct (rules_loop E 1 raws empty_tables []) as [calls [st|code msg|]] eqn:Hloop;
    cbn [snd run_status run_out run_err] in *; intros Hc; [| |done];
    injection Hc as <-.
  - left. split_and!; [done..|]. exists st. split; [|done]. by exists raws, calls.
  - right. split_and!; [done..|]. by eexists.
Qed.

Lemma matrix_or_diagnostic_witness :
  run_status (main elements (sample_env sample_rules)) = Exit 0
  ∧ run_err (main elements (sample_env sample_rules)) = []
  ∧ ∃ st, ingested (sample_env sample_rules) st
          ∧ run_out (main elements (sample_env sample_rules))
            = emit (finish elements st).
Proof.
  assert (Hrun : run_status (main elements (sample_env sample_rules)) = Exit 0)
    by (vm_compute; reflexivity).
  split; [exact Hrun|].
  destruct (matrix_or_diagnostic elements (sample_env sample_rules) 0 Hrun)
    as [(_ & Herr & Hout)|(Hne & _)]; [by split|done].
Defined.

(** ** The marker in the parser's output *)

(** X5.  Lines of the parser's output in front of the first marker line
    are ignored, whatever they look like: scanning them leaves the
    tables as they are, and the scan goes on with the rest as if they
    had not been there. *)
Theorem lines_before_marker_ignored (pre rest : list string) (st : tables) :
  Forall (λ l, Py.strip l ≠ "PRINTING RULES:") pre →
  scan_lines (pre ++ rest) false st = scan_lines rest false st
  ∧ scan_lines pre false st = Some st.
Proof.
  intros Hpre. induction Hpre as [|l pre Hl _ [IH1 IH2]]; [done|].
  cbn [app scan_lines]. rewrite !decide_False by done. done.
Qed.

Lemma lines_before_marker_ignored_witness :
  scan_lines (["banner"; "G9: 5 zz"] ++ ["PRINTING RULES:"; "G1: 1 a"]) false empty_tables
  = scan_lines ["PRINTING RULES:"; "G1: 1 a"] false empty_tables
  ∧ scan_lines ["banner"; "G9: 5 zz"] false empty_tables = Some empty_tables.
Proof.
  apply (lines_before_marker_ignored ["banner"; "G9: 5 zz"]).
  repeat constructor; vm_compute; discriminate.
Defined.

(** X6.  Once the marker has been seen, a further marker line changes
    nothing: it is passed over, and the lines behind it are scanned as
    they would be without it. *)
Theorem marker_repeated_is_skipped (l1 : list string) (marker : string)
    (l2 : list string) (st : tables) :
  Py.strip marker = "PRINTING RULES:" →
  scan_lines (l1 ++ marker :: l2) true st = scan_lines (l1 ++ l2) true st.
Proof.
  intros Hmarker. revert st. induction l1 as [|l l1 IH]; intros st.
  { cbn [app scan_lines]. by rewrite decide_True. }
  cbn [app scan_lines].
  destruct (decide (Py.strip l = "PRINTING RULES:")); [apply IH|].
  cbn [negb].
  destruct (Re.match_ label_line_re (Py.strip l)) as [m|]; [|apply IH].
  cbv zeta.
  destruct (Re.findall pair_re (Re.group m 2)) as [|p pairs]; [apply IH|].
  destruct (pairs_loop (p :: pairs) ∅ st) as [[mapping st1]|]; [apply IH|done].
Qed.

Lemma marker_repeated_is_skipped_witness :
  scan_lines (["G1: 1 a"] ++ " PRINTING RULES: " :: ["G2: 2 b"]) true empty_tables
  = scan_lines (["G1: 1 a"] ++ ["G2: 2 b"]) true empty_tables.
Proof.
  apply (marker_repeated_is_skipped ["G1: 1 a"] " PRINTING RULES: " ["G2: 2 b"]).
  vm_compute. reflexivity.
Defined.

(** ** Cleaning a line *)

Section Cleaning.

Implicit Types (p q : ascii → bool) (s : string).

Lemma rstrip_by_absorbs p q s :
  (∀ c, q c = true → p c = true) →
  Py.rstrip_by q (Py.rstrip_by p s) = Py.rstrip_by p s.
Proof.
  intros Hqp. induction s as [|c s IH]; [done|]. cbn [Py.rstrip_by].
  destruct (Py.rstrip_by p s) as [|d r] eqn:Hr.
  - destruct (p c) eqn:Hc; [done|]. cbn [Py.rstrip_by].
    destruct (q c) eqn:Hq; [|done]. apply Hqp in Hq. congruence.
  - cbn [Py.rstrip_by] in IH |- *. by rewrite IH.
Qed.

Lemma lstrip_by_head p s :
  Py.lstrip_by p s = "" ∨ ∃ c r, Py.lstrip_by p s = String c r ∧ p c = false.
Proof.
  induction s as [|c s IH]; [by left|]. cbn [Py.lstrip_by].
  destruct (p c) eqn:Hc; [done|]. right. by exists c, s.
Qed.

Lemma rstrip_by_keeps_head p c r :
  p c = false → ∃ r', Py.rstrip_by p (String c r) = String c r'.
Proof.
  intros Hc. cbn [Py.rstrip_by]. destruct (Py.rstrip_by p r); rewrite ?Hc; eauto.
Qed.

Lemma strip_idempotent s : Py.strip (Py.strip s) = Py.strip s.
Proof.
  unfold Py.strip.
  assert (Py.lstrip_by Py.isspace (Py.rstrip_by Py.isspace (Py.lstrip_by Py.isspace s))
          = Py.rstrip_by Py.isspace (Py.lstrip_by Py.isspace s)) as ->.
  { destruct (lstrip_by_head Py.isspace s) as [->|(c & r & -> & Hc)]; [done|].
    destruct (rstrip_by_keeps_head Py.isspace c r Hc) as [r' ->].
    cbn [Py.lstrip_by]. by rewrite Hc. }
  by apply rstrip_by_absorbs.
Qed.

End Cleaning.

(** X7.  Stripping the carriage returns at the end of a stripped line
    removes nothing, so cleaning a line is stripping it; and a cleaned
    line is clean: cleaning it again gives the same line. *)
Theorem clean_line_is_strip (raw : string) :
  clean_line raw = Py.strip raw
  ∧ clean_line (clean_line raw) = clean_line raw.
Proof.
  assert (Hstrip : ∀ s, clean_line s = Py.strip s).
  { intros s. unfold clean_line, Py.rstrip_chars, Py.strip.
    apply rstrip_by_absorbs. intros c. unfold CRs. cbn [Py.mem_char].
    destruct (decide (c = Py.CR)) as [->|]; done. }
  rewrite !Hstrip. split; [done|]. apply strip_idempotent.
Qed.

(** ** What the two patterns hand over *)

Ltac invert_matches :=
  repeat match goal with
         | H : matches (Re.Seq _ _) _ _ _ |- _ => inversion H; clear H; subst
         | H : matches (Re.Group _ _) _ _ _ |- _ => inversion H; clear H; subst
         | H : matches (Re.Cls _) _ _ _ |- _ => inversion H; clear H; subst
         | H : matches (Re.Many _) _ _ _ |- _ => inversion H; clear H; subst
         | H : matches Re.Eps _ _ _ |- _ => inversion H; clear H; subst
         | H : matches Re.Bos _ _ _ |- _ => inversion H; clear H; subst
         | H : matches Re.Eos _ _ _ |- _ => inversion H; clear H; subst
         | H : matches (Re.plus _) _ _ _ |- _ => unfold Re.plus in H
         end.

Section Patterns.

Implicit Types (s t : string) (g : gmap nat string).

Lemma all_chars_app p s t : all_chars p (s +:+ t) = all_chars p s && all_chars p t.
Proof.
  induction s as [|c s IH]; [done|]. rewrite app_cons. simpl.
  by rewrite IH, andb_assoc.
Qed.

Lemma all_chars_impl (p q : ascii → bool) s :
  (∀ c, p c = true → q c = true) → all_chars p s = true → all_chars q s = true.
Proof.
  intros Hpq. induction s as [|c s IH]; [done|]. simpl.
  rewrite !andb_true_iff. intros [Hc Hs]. auto.
Qed.

Lemma run_seq {R} whole r1 r2 s g (k : string → gmap nat string → option R) :
  Re.run whole (Re.Seq r1 r2) s g k
  = Re.run whole r1 s g (λ s1 g1, Re.run whole r2 s1 g1 k).
Proof. reflexivity. Qed.

Lemma pair_re_group2 t g : matches pair_re t ∅ g → clean_name (Re.group g 2).
Proof.
  unfold pair_re, Re.seqs. cbn [foldr]. intros Hm.
  invert_matches; unfold Re.group; rewrite lookup_insert_eq; cbn [default];
    (split; [by rewrite app_cons|]);
    rewrite app_cons, app_empty_l; simpl; apply andb_true_iff; done.
Qed.

Lemma findall_from_clean whole k s :
  Forall (λ p, clean_name p.2) (Re.findall_from whole pair_re k s).
Proof.
  revert k. induction s as [|c s IH]; intros k; cbn [Re.findall_from]; [constructor|].
  destruct k as [|k]; [|apply IH].
  destruct (Re.pair_at whole pair_re (String c s)) as [[[g1 g2] n]|] eqn:Hp; [|apply IH].
  constructor; [|apply IH]. cbn [snd].
  unfold Re.pair_at in Hp.
  apply run_sound in Hp as (t & s' & g & _ & Hm & [= _ <- _]).
  by eapply pair_re_group2.
Qed.

Lemma pair_re_group1_shape t g :
  matches pair_re t ∅ g → signed_number (Re.group g 1).
Proof.
  unfold pair_re, Re.seqs, Re.plus. cbn [foldr]. intros Hm.
  invert_matches.
  match goal with
  | H : matches (Re.Opt _) _ _ _ |- _ => inversion H; clear H; subst
  end;
    invert_matches; unfold Re.group;
    rewrite ?app_empty_r, ?app_cons, ?app_empty_l;
    rewrite lookup_insert_ne, lookup_insert_eq by done; cbn [default]; unfold id.
  - match goal with
    | H : Re.one_of "+-" ?a = true |- signed_number (String ?a ?ds) =>
        assert (String a "" = "+" ∨ String a "" = "-") as Hsign;
          [|exists (String a ""), ds]
    end.
    { unfold Re.one_of in *. cbn [Py.mem_char] in *.
      repeat case_decide; simplify_eq; auto. }
    split_and!; [done|tauto|done|].
    simpl. apply andb_true_iff. done.
  - match goal with
    | |- signed_number ?ds => exists "", ds
    end.
    split_and!; [done|by left|done|].
    simpl. apply andb_true_iff. done.
Qed.

Lemma findall_from_signed whole k s :
  Forall (λ p, signed_number p.1) (Re.findall_from whole pair_re k s).
Proof.
  revert k. induction s as [|c s IH]; intros k; cbn [Re.findall_from]; [constructor|].
  destruct k as [|k]; [|apply IH].
  destruct (Re.pair_at whole pair_re (String c s)) as [[[g1 g2] n]|] eqn:Hp; [|apply IH].
  constructor; [|apply IH]. cbn [fst].
  unfold Re.pair_at in Hp.
  apply run_sound in Hp as (t & s' & g & _ & Hm & [= <- _ _]).
  by eapply pair_re_group1_shape.
Qed.

(** Every step of the label pattern, one after the other. *)
Lemma label_line_re_shape s m :
  Re.match_ label_line_re s = Some m →
  ∃ ws body last ws' rest,
    s = Re.group m 1 +:+ ":" +:+ ws +:+ Re.group m 2 +:+ ws' +:+ rest
    ∧ Re.group m 2 = body +:+ String last ""
    ∧ Re.group m 1 ≠ ""
    ∧ all_chars (Re.nonspace_none_of ":") (Re.group m 1) = true
    ∧ ws ≠ "" ∧ all_chars Re.space ws = true
    ∧ all_chars Re.dot body = true ∧ Re.nonspace last = true
    ∧ all_chars Re.space ws' = true
    ∧ (rest = "" ∨ rest = NL).
Proof.
  unfold Re.match_, label_line_re, Re.seqs. cbn [foldr]. intros H.
  do 6 (rewrite run_seq in H;
        apply run_sound in H as (? & ? & ? & -> & ? & H)).
  rewrite run_seq in H. cbn [Re.run] in H.
  destruct (decide _) as [Hrest|]; [|done]. injection H as <-.
  invert_matches.
  unfold Re.group. rewrite lookup_insert_eq, lookup_insert_ne, lookup_insert_eq by done.
  cbn [default].
  match goal with
  | H : Re.one_of ":" ?a = true |- _ =>
      assert (a = ":"%char) as ->
        by (unfold Re.one_of in H; cbn [Py.mem_char] in H; by case_decide)
  end.
  repeat match goal with
         | H : all_chars _ _ = true |- _ => revert H
         | H : _ _ = true |- _ => revert H
         end.
  intros. unfold id.
  eexists (String _ _), _, _, _, _.
  split_and!; [reflexivity|reflexivity|..]; try done.
  - rewrite app_cons, app_empty_l. simpl. by apply andb_true_iff.
  - simpl. by apply andb_true_iff.
Qed.

End Patterns.

(** X8.  Every pair that the pair pattern finds in an equation has a
    coefficient that reads as a decimal number with an optional sign,
    one digit at least, and a variable that is not empty and holds no
    whitespace.  Nothing is said of the length of the number. *)
Theorem pairs_are_well_formed (eq : string) :
  Forall (λ p, signed_number p.1 ∧ clean_name p.2) (Re.findall pair_re eq).
Proof.
  apply Forall_and. split; [apply findall_from_signed|apply findall_from_clean].
Qed.

(** X9.  A line that matches the label pattern reads: label, colon,
    whitespace, equation, and nothing but whitespace behind.  The label
    is not empty and holds neither whitespace nor a colon; the equation
    ends in a character that is no whitespace and holds no line feed. *)
Theorem label_line_shape (s label eq : string) :
  label_line_match s = Some (label, eq) →
  ∃ ws body last ws' rest,
    s = label +:+ ":" +:+ ws +:+ eq +:+ ws' +:+ rest
    ∧ eq = body +:+ String last ""
    ∧ label ≠ ""
    ∧ all_chars (Re.nonspace_none_of ":") label = true
    ∧ ws ≠ "" ∧ all_chars Re.space ws = true
    ∧ all_chars Re.dot body = true ∧ Re.nonspace last = true
    ∧ all_chars Re.space ws' = true
    ∧ (rest = "" ∨ rest = NL).
Proof.
  unfold label_line_match.
  destruct (Re.match_ label_line_re s) as [m|] eqn:Hm; [|done].
  simpl. intros [= <- <-]. by apply label_line_re_shape.
Qed.

Lemma label_line_shape_witness :
  ∃ ws body last ws' rest,
    "G1:  1 pr_A -1 pr_B "
    = "G1" +:+ ":" +:+ ws +:+ "1 pr_A -1 pr_B" +:+ ws' +:+ rest
    ∧ "1 pr_A -1 pr_B" = body +:+ String last ""
    ∧ "G1" ≠ ""
    ∧ all_chars (Re.nonspace_none_of ":") "G1" = true
    ∧ ws ≠ "" ∧ all_chars Re.space ws = true
    ∧ all_chars Re.dot body = true ∧ Re.nonspace last = true
    ∧ all_chars Re.space ws' = true
    ∧ (rest = "" ∨ rest = NL).
Proof.
  apply (label_line_shape "G1:  1 pr_A -1 pr_B " "G1" "1 pr_A -1 pr_B").
  vm_compute. reflexivity.
Defined.

(** ** The names in the matrix *)

Section Names.

Implicit Types (st : tables) (v b : string).

Lemma clean_name_suffix p b : b ≠ "" → clean_name (p +:+ b) → clean_name b.
Proof.
  intros Hb [_ Hall]. split; [done|].
  rewrite all_chars_app in Hall. by apply andb_true_iff in Hall as [_ ?].
Qed.

Lemma clean_name_prefixed p s :
  p ≠ "" → all_chars Py.nonspace p = true → all_chars Py.nonspace s = true →
  clean_name (p +:+ s).
Proof.
  intros Hp Hpc Hs. split.
  - intros [? _]%app_empty_inv. done.
  - rewrite all_chars_app. by apply andb_true_iff.
Qed.

Lemma clean_base v b :
  clean_name v → protein_base v = Some b → all_chars Py.nonspace b = true.
Proof.
  intros [_ Hv] [_ Hb]%protein_base_Some.
  destruct Hb as [->|[->| ->]]; rewrite all_chars_app in Hv;
    by apply andb_true_iff in Hv as [_ ?].
Qed.

Lemma add_var_names_clean name st :
  clean_name name → names_clean st → names_clean (add_var name st).
Proof.
  intros Hname [Hvars Hcols]. unfold add_var.
  destruct (var_index st !! name); [done|]. split; [|done].
  cbn [all_vars]. apply Forall_app. split; [done|]. by constructor.
Qed.

Lemma append_column_names_clean c st :
  clean_name c.1 → names_clean st → names_clean (append_column c st).
Proof.
  intros Hc [Hvars Hcols]. split; [done|].
  cbn [columns append_column]. rewrite fmap_app. apply Forall_app.
  split; [done|]. by constructor.
Qed.

Lemma ingested_names_clean E st : ingested E st → names_clean st.
Proof.
  intros (raws & calls & _ & Hloop).
  apply (rules_loop_preserves names_clean clean_name clean_name
           add_var_names_clean append_column_names_clean) in Hloop; [done| | |].
  - intros eq. apply Forall_fmap. apply findall_from_clean.
  - intros s m (ws & body & last & ws' & rest & _ & _ & Hne & Hall & _)%label_line_re_shape.
    split; [done|]. revert Hall. apply all_chars_impl.
    intros c. unfold Re.nonspace_none_of, Py.nonspace.
    by intros [? _]%andb_true_iff.
  - by split; constructor.
Qed.

End Names.

(** X10.  No name in the printed matrix is empty or holds whitespace,
    so none holds a tab or a line break: this goes for the variable at
    the head of every row and for the label of every column, the
    synthesized ones included. *)
Theorem matrix_names_are_clean
    (iter_order : gset string → list string) (E : env) (st : tables) :
  enumerates iter_order →
  ingested E st →
  Forall clean_name (all_vars (finish iter_order st))
  ∧ Forall clean_name (columns (finish iter_order st)).*1.
Proof.
  intros Hiter Hst.
  pose proof (ingested_wf E st Hst) as Hwf.
  destruct (ingested_names_clean E st Hst) as [Hvars Hcols].
  destruct (finish_spec iter_order Hiter st Hwf) as (Hfv & _ & Hfc).
  destruct (normalize_spec iter_order Hiter st Hwf)
    as (_ & _ & (added & Hadd & Hadded) & Hsame & _).
  destruct (classify_elem (all_vars (normalize iter_order st))) as [Hgene Hprot].
  rewrite Forall_forall in Hvars.
  assert (Hbase : ∀ b, b ∈ collect_bases (all_vars st) →
                       b ≠ "" ∧ all_chars Py.nonspace b = true).
  { intros b (Hb & v & Hv & Hbase)%collect_bases_elem. split; [done|].
    by eapply clean_base; [apply Hvars|]. }
  assert (Hrows : Forall clean_name (all_vars (normalize iter_order st))).
  { rewrite Hadd. apply Forall_app. split; [by apply Forall_forall|].
    apply Forall_forall. intros v (b & [Hb Hall]%Hbase & [-> | ->])%Hadded;
      by apply clean_name_prefixed. }
  split; [by rewrite Hfv|].
  rewrite Hfc, !fmap_app, !Forall_app. split_and!; [done| |].
  - rewrite Forall_fmap. apply Forall_forall. intros c (g & -> & Hg)%list_elem_of_fmap.
    cbn. unfold gene_bases in Hg.
    rewrite (sorted_set_elem iter_order Hiter), Hgene in Hg.
    rewrite Forall_forall in Hrows. destruct (Hrows _ Hg) as [_ Hall].
    rewrite all_chars_app in Hall. apply andb_true_iff in Hall as [Hall _].
    by apply clean_name_prefixed.
  - rewrite Forall_fmap. apply Forall_forall. intros c (b & -> & Hb)%list_elem_of_fmap.
    cbn. unfold protein_bases in Hb.
    rewrite (sorted_set_elem iter_order Hiter), Hprot, Hsame in Hb.
    destruct (Hbase b Hb) as [_ Hall]. by apply clean_name_prefixed.
Qed.

Lemma matrix_names_are_clean_witness :
  Forall clean_name (all_vars (finish elements sample_tables))
  ∧ Forall clean_name (columns (finish elements sample_tables)).*1.
Proof.
  exact (matrix_names_are_clean elements (sample_env sample_rules) sample_tables
           elements_enumerates sample_ingested).
Defined.

(** ** Rows and columns refer to each other *)

Section Linked.

Implicit Types (st : tables) (v : string).

Lemma pairs_loop_vars pairs (m m' : gmap string Z) st st' :
  tables_wf st →
  pairs_loop pairs m st = Some (m', st') →
  ∀ v, v ∈ all_vars st' ↔ v ∈ all_vars st ∨ v ∈ pairs.*2.
Proof.
  revert m st. induction pairs as [|[c w] pairs IH]; intros m st Hwf; cbn [pairs_loop].
  { intros [= _ <-] v. rewrite fmap_nil, elem_of_nil. naive_solver. }
  destruct (Py.int c); [|done]. intros Hloop v.
  rewrite (IH _ _ (add_var_wf w st Hwf) Hloop v), add_var_elem by done.
  rewrite fmap_cons, elem_of_cons. cbn [snd]. naive_solver.
Qed.

Lemma scan_lines_linked lines capturing st st' :
  scan_lines lines capturing st = Some st' → linked st → linked st'.
Proof.
  revert capturing st. induction lines as [|out_line rest IH]; intros capturing st;
    cbn [scan_lines].
  { by intros [= <-]. }
  destruct (decide (Py.strip out_line = "PRINTING RULES:")); [by apply IH|].
  destruct (negb capturing); [by apply IH|].
  destruct (Re.match_ label_line_re (Py.strip out_line)) as [m|]; [|by apply IH].
  cbv zeta. pose proof (findall_int (Re.group m 2)) as Hint.
  destruct (Re.findall pair_re (Re.group m 2)) as [|p pairs]; [by apply IH|].
  destruct (pairs_loop_spec (p :: pairs) ∅ st Hint)
    as (m' & st1 & Hloop & Hcols & Hwf1 & Hm').
  rewrite Hloop. intros Hscan (Hwf & Hkeys & Hrows). eapply IH; [done|].
  pose proof (pairs_loop_vars _ _ _ _ _ Hwf Hloop) as Hvars.
  assert (Hkey : ∀ v, is_Some (m' !! v) ↔ v ∈ (p :: pairs).*2).
  { intros v. rewrite Hm', lookup_empty. case_decide; [|by rewrite is_Some_alt].
    split; [done|]. intros _. by eexists. }
  split_and!.
  - by apply append_column_wf, Hwf1.
  - intros c v. cbn [columns all_vars append_column].
    rewrite Hcols, elem_of_app, list_elem_of_singleton, Hvars.
    intros [Hc| ->] Hv; [left; by eapply Hkeys|right; by apply Hkey].
  - intros v. cbn [columns all_vars append_column]. rewrite Hvars, Hcols.
    intros [Hv|Hv].
    + destruct (Hrows v Hv) as (c & Hc & Hcv). exists c.
      split; [|done]. apply elem_of_app. by left.
    + eexists. split; [apply elem_of_app; right; apply list_elem_of_here|].
      by apply Hkey.
Qed.

Lemma rules_loop_linked E raws idx st calls calls' st' :
  rules_loop E idx raws st calls = (calls', Done st') → linked st → linked st'.
Proof.
  revert idx st calls. induction raws as [|raw raws IH]; intros idx st calls;
    cbn [rules_loop].
  { by intros [= _ <-]. }
  destruct (skipped (clean_line raw)); [by apply IH|].
  unfold run_parser. destruct (decide (returncode _ ≠ 0)); [done|].
  destruct (scan_lines _ false st) as [st1|] eqn:Hscan; [|done].
  intros Hloop Hst. eapply IH; [done|]. by eapply scan_lines_linked.
Qed.

Lemma ingested_linked E st : ingested E st → linked st.
Proof.
  intros (raws & calls & _ & Hloop). eapply rules_loop_linked; [done|].
  split_and!; [apply empty_tables_wf|intros c v ?%elem_of_nil|intros v ?%elem_of_nil];
    done.
Qed.

Lemma no_elements {A} (l : list A) : (∀ x, x ∉ l) → l = [].
Proof. destruct l as [|x l]; [done|]. intros H. destruct (H x). by left. Qed.

End Linked.

(** X11.  Every variable to which a column of the printed matrix gives
    a coefficient is the variable of a row, so no coefficient falls
    outside the matrix; this goes for the columns of the rules and for
    the synthesized ones. *)
Theorem coefficients_have_rows
    (iter_order : gset string → list string) (E : env) (st : tables) :
  enumerates iter_order →
  ingested E st →
  keys_are_rows (finish iter_order st).
Proof.
  intros Hiter Hst.
  destruct (ingested_linked E st Hst) as (Hwf & Hkeys & _).
  destruct (finish_spec iter_order Hiter st Hwf) as (Hfv & _ & Hfc).
  destruct (normalize_spec iter_order Hiter st Hwf)
    as (Hwfn & _ & (added & Hadd & _) & _ & _).
  destruct (classify_elem (all_vars (normalize iter_order st))) as [Hgene _].
  intros c v. rewrite Hfc, Hfv, !elem_of_app, !list_elem_of_fmap.
  intros [Hc|[(g & -> & Hg)|(b & -> & Hb)]] Hv.
  - rewrite Hadd, elem_of_app. left. by eapply Hkeys.
  - unfold ex_column in Hv. cbn [snd] in Hv.
    apply lookup_singleton_is_Some in Hv as <-.
    unfold gene_bases in Hg.
    by rewrite (sorted_set_elem iter_order Hiter), Hgene in Hg.
  - unfold av_column in Hv. cbn [snd] in Hv.
    rewrite av_mapping_lookup in Hv. case_decide as Hd; [|by destruct Hv].
    apply Hwfn. by destruct Hd.
Qed.

Lemma coefficients_have_rows_witness :
  keys_are_rows (finish elements sample_tables).
Proof.
  exact (coefficients_have_rows elements (sample_env sample_rules) sample_tables
           elements_enumerates sample_ingested).
Defined.

(** X12.  Every row of the printed matrix belongs to at least one
    column: a variable of the rules to the column of an equation that
    names it, a synthesized row to the [AV_] column of its base. *)
Theorem rows_have_columns
    (iter_order : gset string → list string) (E : env) (st : tables) :
  enumerates iter_order →
  ingested E st →
  rows_are_keys (finish iter_order st).
Proof.
  intros Hiter Hst.
  destruct (ingested_linked E st Hst) as (Hwf & _ & Hrows).
  destruct (finish_spec iter_order Hiter st Hwf) as (Hfv & _ & Hfc).
  destruct (normalize_spec iter_order Hiter st Hwf)
    as (Hwfn & _ & (added & Hadd & Hadded) & Hsame & _).
  destruct (classify_elem (all_vars (normalize iter_order st))) as [_ Hprot].
  intros v. rewrite Hfv. intros Hv. pose proof Hv as Hvn.
  rewrite Hadd, elem_of_app in Hv. destruct Hv as [Hv|Hv].
  - destruct (Hrows v Hv) as (c & Hc & Hcv). exists c. split; [|done].
    rewrite Hfc, elem_of_app. by left.
  - destruct (Hadded v Hv) as (b & Hb & Hvb).
    exists (av_column (normalize iter_order st) b). split.
    + rewrite Hfc, !elem_of_app. right; right. apply list_elem_of_fmap_2.
      unfold protein_bases.
      by rewrite (sorted_set_elem iter_order Hiter), Hprot, Hsame.
    + unfold av_column. cbn [snd].
      rewrite av_mapping_lookup, decide_True; [by eexists|].
      split; [|by apply Hwfn].
      destruct Hvb as [-> | ->];
        [apply list_elem_of_here|apply list_elem_of_further, list_elem_of_here].
Qed.

Lemma rows_have_columns_witness :
  rows_are_keys (finish elements sample_tables).
Proof.
  exact (rows_have_columns elements (sample_env sample_rules) sample_tables
           elements_enumerates sample_ingested).
Defined.

(** X13.  When no rule of the file yields a column, because the file
    holds no rule at all or because no output of the parser holds an
    equation behind the marker, the run prints the single line
    [variable] followed by a tab, and ends with exit code 0. *)
Theorem no_equation_header_only
    (iter_order : gset string → list string) (E : env) (raws : list string) :
  enumerates iter_order →
  parser_exists E = true →
  rules_file E = Some raws →
  Forall (parser_ok E) (rules_of raws) →
  Forall (λ rule, columns_of_rule E rule = []) (rules_of raws) →
  run_status (main iter_order E) = Exit 0
  ∧ run_out (main iter_order E) = ["variable" +:+ TABs].
Proof.
  intros Hiter Hparser Hfile Hok Hnone.
  destruct (rules_loop_all_ok E raws 1 empty_tables [] empty_tables_wf Hok)
    as (calls & st & Hloop).
  assert (Hst : ingested E st) by (by exists raws, calls).
  destruct (main_success iter_order E st Hparser Hst) as (Hstatus & Hout & _).
  split; [done|]. rewrite Hout.
  destruct (ingested_linked E st Hst) as (Hwf & _ & Hrows).
  assert (Hcols : columns st = []).
  { rewrite (rules_loop_columns E _ _ _ _ _ _ empty_tables_wf Hloop).
    unfold columns_of_rules. cbn [columns empty_tables app].
    clear -Hnone. induction Hnone as [|rule rules Hrule _ IH]; [done|].
    by rewrite bind_cons, Hrule, IH. }
  assert (Hvars : all_vars st = []).
  { apply no_elements. intros v (c & Hc & _)%Hrows. rewrite Hcols in Hc.
    by apply elem_of_nil in Hc. }
  destruct (finish_spec iter_order Hiter st Hwf) as (Hfv & _ & Hfc).
  destruct (normalize_spec iter_order Hiter st Hwf)
    as (_ & _ & (added & Hadd & Hadded) & _ & _).
  destruct (classify_elem (all_vars (normalize iter_order st))) as [Hgene Hprot].
  assert (Hadded_nil : added = []).
  { apply no_elements. intros v (b & Hb & _)%Hadded.
    rewrite Hvars in Hb. by apply collect_bases_elem in Hb as (_ & w & ?%elem_of_nil & _). }
  assert (Hn : all_vars (normalize iter_order st) = []).
  { by rewrite Hadd, Hvars, Hadded_nil. }
  assert (Hg : gene_bases iter_order st = []).
  { apply no_elements. intros g. unfold gene_bases.
    rewrite (sorted_set_elem iter_order Hiter), Hgene, Hn. apply not_elem_of_nil. }
  assert (Hp : protein_bases iter_order st = []).
  { apply no_elements. intros b. unfold protein_bases.
    rewrite (sorted_set_elem iter_order Hiter), Hprot, Hn.
    by intros (_ & w & ?%elem_of_nil & _)%collect_bases_elem. }
  unfold emit. rewrite Hfv, Hfc, Hn, Hcols, Hg, Hp. reflexivity.
Qed.

Lemma no_equation_header_only_witness :
  run_status (main elements (sample_env ["# nothing but a comment"; "   "])) = Exit 0
  ∧ run_out (main elements (sample_env ["# nothing but a comment"; "   "]))
    = ["variable" +:+ TABs].
Proof.
  apply (no_equation_header_only elements
           (sample_env ["# nothing but a comment"; "   "])
           ["# nothing but a comment"; "   "]).
  - exact elements_enumerates.
  - reflexivity.
  - reflexivity.
  - assert (rules_of ["# nothing but a comment"; "   "] = []) as ->
      by (vm_compute; reflexivity).
    constructor.
  - assert (rules_of ["# nothing but a comment"; "   "] = []) as ->
      by (vm_compute; reflexivity).
    constructor.
Defined.

(** ** Normalization, seen from outside *)

Section NormalizeAgain.

Implicit Types (st : tables) (b : string).

Lemma ensure_rows_present st b :
  tables_wf st →
  "pr_" +:+ b ∈ all_vars st → "NOT_pr_" +:+ b ∈ all_vars st →
  ensure_rows st b = st.
Proof.
  intros [_ Hidx] [i Hi]%Hidx [j Hj]%Hidx.
  rewrite ensure_rows_eq, (add_var_present _ _ _ Hi). by apply add_var_present in Hj.
Qed.

Lemma ensure_all_present bs st :
  tables_wf st →
  (∀ b, b ∈ bs → "pr_" +:+ b ∈ all_vars st ∧ "NOT_pr_" +:+ b ∈ all_vars st) →
  foldl ensure_rows st bs = st.
Proof.
  intros Hwf. induction bs as [|b bs IH]; intros Hin; [done|]. cbn [foldl].
  destruct (Hin b) as [Hpr Hnot]; [apply list_elem_of_here|].
  rewrite ensure_rows_present by done.
  apply IH. intros b' Hb'. apply Hin. by apply list_elem_of_further.
Qed.

End NormalizeAgain.

(** X14.  Normalizing twice is normalizing once: after the first pass
    every base has both rows, and a second pass would leave the columns,
    the variables and the index exactly as they are. *)
Theorem normalize_idempotent
    (iter_order : gset string → list string) (E : env) (st : tables) :
  enumerates iter_order →
  ingested E st →
  normalize iter_order (normalize iter_order st) = normalize iter_order st.
Proof.
  intros Hiter Hst.
  pose proof (ingested_wf E st Hst) as Hwf.
  destruct (normalize_spec iter_order Hiter st Hwf) as (Hwfn & _ & _ & Hsame & Hrows).
  unfold normalize at 1. apply ensure_all_present; [done|].
  intros b Hb%(sorted_set_elem iter_order Hiter). by apply Hrows, Hsame.
Qed.

Lemma normalize_idempotent_witness :
  normalize elements (normalize elements sample_tables)
  = normalize elements sample_tables.
Proof.
  exact (normalize_idempotent elements (sample_env sample_rules) sample_tables
           elements_enumerates sample_ingested).
Defined.

(** X15.  The rows of the printed matrix are the variables of the rules
    and, for every base that is not empty and that one of them has, the
    two rows [pr_] and [NOT_pr_] of that base; nothing else is a row,
    and no row comes twice. *)
Theorem rows_of_the_matrix
    (iter_order : gset string → list string) (E : env) (st : tables) :
  enumerates iter_order →
  ingested E st →
  NoDup (all_vars (finish iter_order st))
  ∧ ∀ v, v ∈ all_vars (finish iter_order st)
         ↔ v ∈ all_vars st
           ∨ ∃ w b, w ∈ all_vars st ∧ protein_base w = Some b ∧ b ≠ ""
                    ∧ (v = "pr_" +:+ b ∨ v = "NOT_pr_" +:+ b).
Proof.
  intros Hiter Hst.
  pose proof (ingested_wf E st Hst) as Hwf.
  destruct (finish_spec iter_order Hiter st Hwf) as (Hfv & _ & _).
  destruct (normalize_spec iter_order Hiter st Hwf)
    as (Hwfn & _ & (added & Hadd & Hadded) & _ & Hrows).
  rewrite Hfv. split; [apply Hwfn|].
  intros v. split.
  - rewrite Hadd, elem_of_app. intros [Hv|Hv]; [by left|right].
    destruct (Hadded v Hv) as (b & (Hb & w & Hw & Hbase)%collect_bases_elem & Hvb).
    by exists w, b.
  - intros [Hv|(w & b & Hw & Hbase & Hb & Hvb)].
    + rewrite Hadd, elem_of_app. by left.
    + destruct (Hrows b) as [Hpr Hnot]; [apply collect_bases_elem; eauto|].
      by destruct Hvb as [-> | ->].
Qed.

Lemma rows_of_the_matrix_witness :
  NoDup (all_vars (finish elements sample_tables))
  ∧ ("NOT_pr_B" ∈ all_vars (finish elements sample_tables)
     ↔ "NOT_pr_B" ∈ all_vars sample_tables
       ∨ ∃ w b, w ∈ all_vars sample_tables ∧ protein_base w = Some b ∧ b ≠ ""
                ∧ ("NOT_pr_B" = "pr_" +:+ b ∨ "NOT_pr_B" = "NOT_pr_" +:+ b)).
Proof.
  destruct (rows_of_the_matrix elements (sample_env sample_rules) sample_tables
              elements_enumerates sample_ingested) as [Hnd Hrows].
  split; [exact Hnd|apply Hrows].
Defined.

(** X16.  Reading the bases off the variables again after normalization
    gives the sets it gave before: the rows that normalization adds are
    no gene activity rows and bring no new protein base.  The protein
    bases of that second reading are the bases that normalization
    itself went through. *)
Theorem bases_unchanged_by_normalize
    (iter_order : gset string → list string) (E : env) (st : tables) :
  enumerates iter_order →
  ingested E st →
  classify (all_vars (normalize iter_order st)) = classify (all_vars st)
  ∧ (classify (all_vars st)).2 = collect_bases (all_vars st).
Proof.
  intros Hiter Hst.
  pose proof (ingested_wf E st Hst) as Hwf.
  destruct (normalize_spec iter_order Hiter st Hwf)
    as (_ & _ & (added & Hadd & Hadded) & Hsame & _).
  destruct (classify_elem (all_vars (normalize iter_order st))) as [Hgn Hpn].
  destruct (classify_elem (all_vars st)) as [Hg Hp].
  assert (H1 : (classify (all_vars (normalize iter_order st))).1
               = (classify (all_vars st)).1).
  { apply set_eq. intros g. rewrite Hgn, Hg, Hadd, elem_of_app.
    split; [|by left]. intros [?|Hv]; [done|]. exfalso.
    destruct (Hadded _ Hv) as (b & (Hb & w & Hw & Hbase)%collect_bases_elem & Hvb).
    destruct (base_rows_not_gene w b Hbase Hb) as [Hpr Hnot].
    destruct Hvb as [Heq|Heq]; rewrite <-Heq, endswith_app in *; done. }
  assert (H2 : (classify (all_vars (normalize iter_order st))).2
               = (classify (all_vars st)).2).
  { apply set_eq. intros b. by rewrite Hpn, Hp, Hsame. }
  split.
  - destruct (classify (all_vars (normalize iter_order st))), (classify (all_vars st)).
    simpl in *. congruence.
  - apply set_eq. intros b. apply Hp.
Qed.

Lemma bases_unchanged_by_normalize_witness :
  classify (all_vars (normalize elements sample_tables))
  = classify (all_vars sample_tables)
  ∧ (classify (all_vars sample_tables)).2 = collect_bases (all_vars sample_tables).
Proof.
  exact (bases_unchanged_by_normalize elements (sample_env sample_rules) sample_tables
           elements_enumerates sample_ingested).
Defined.

(** X17.  The column [AV_b] of a protein base holds +1 on the rows
    [pr_b] and [NOT_pr_b], +1 on the row [NOT_b] when the matrix has
    such a row, and 0 on every other row. *)
Theorem av_column_cells
    (iter_order : gset string → list string) (E : env) (st : tables) (b : string) :
  enumerates iter_order →
  ingested E st →
  b ∈ protein_bases iter_order st →
  av_column (normalize iter_order st) b ∈ columns (finish iter_order st)
  ∧ ∀ v, get0 (av_column (normalize iter_order st) b).2 v
         = if decide (v = "pr_" +:+ b ∨ v = "NOT_pr_" +:+ b
                      ∨ (v = "NOT_" +:+ b
                         ∧ "NOT_" +:+ b ∈ all_vars (finish iter_order st)))
           then 1 else 0.
Proof.
  intros Hiter Hst Hb.
  pose proof (ingested_wf E st Hst) as Hwf.
  destruct (finish_spec iter_order Hiter st Hwf) as (Hfv & _ & Hfc).
  destruct (normalize_spec iter_order Hiter st Hwf) as (Hwfn & _ & _ & Hsame & Hrows).
  destruct (classify_elem (all_vars (normalize iter_order st))) as [_ Hprot].
  split.
  { rewrite Hfc, !elem_of_app. right; right. by apply list_elem_of_fmap_2. }
  unfold protein_bases in Hb.
  rewrite (sorted_set_elem iter_order Hiter), Hprot, Hsame in Hb.
  destruct (Hrows b Hb) as [Hpr Hnot].
  intros v. unfold av_column, get0. cbn [snd]. rewrite av_mapping_lookup, Hfv.
  destruct (decide (v ∈ ["pr_" +:+ b; "NOT_pr_" +:+ b; "NOT_" +:+ b]
                    ∧ is_Some (var_index (normalize iter_order st) !! v)))
    as [[Hin Hv]|Hno].
  - rewrite decide_True; [done|]. apply Hwfn in Hv.
    rewrite !elem_of_cons, elem_of_nil in Hin.
    destruct Hin as [->|[->|[->|[]]]]; auto.
  - rewrite decide_False; [done|]. intros Hv. apply Hno.
    rewrite !elem_of_cons. destruct Hv as [->|[->|[-> Hrow]]].
    + split; [auto|by apply Hwfn].
    + split; [auto|by apply Hwfn].
    + split; [auto|by apply Hwfn].
Qed.

Lemma av_column_cells_witness :
  get0 (av_column (normalize elements sample_tables) "Q").2 "NOT_Q" = 1
  ∧ get0 (av_column (normalize elements sample_tables) "A").2 "NOT_A" = 0
  ∧ get0 (av_column (normalize elements sample_tables) "A").2 "pr_A" = 1.
Proof.
  assert (HQ : "Q" ∈ protein_bases elements sample_tables)
    by (vm_compute; repeat constructor).
  assert (HA : "A" ∈ protein_bases elements sample_tables)
    by (vm_compute; repeat constructor).
  destruct (av_column_cells elements (sample_env sample_rules) sample_tables "Q"
              elements_enumerates sample_ingested HQ) as [_ HcQ].
  destruct (av_column_cells elements (sample_env sample_rules) sample_tables "A"
              elements_enumerates sample_ingested HA) as [_ HcA].
  rewrite !HcQ, !HcA. split_and!.
  - apply decide_True. right; right. split; [done|]. vm_compute. repeat constructor.
  - apply decide_False. intros [H|[H|[_ H]]]; [done..|].
    revert H. apply (bool_decide_unpack _). vm_compute. exact I.
  - apply decide_True. by left.
Defined.

(** ** The order of the terms of an equation *)

Section TermOrder.

Lemma coeff_sum_perm var pairs1 pairs2 :
  pairs1 ≡ₚ pairs2 → coeff_sum var pairs1 = coeff_sum var pairs2.
Proof.
  unfold coeff_sum. induction 1 as [|p l1 l2 _ IH|p q l|l1 l2 l3 _ IH1 _ IH2];
    cbn [foldr]; [done| | |congruence].
  - by rewrite IH.
  - repeat case_decide; lia.
Qed.

End TermOrder.

(** X18.  The column of an equation does not depend on the order of its
    terms: two equations whose pairs are the same up to their order give
    the same mapping, whatever the tables held before. *)
Theorem term_order_is_irrelevant (eq1 eq2 : string) (st1 st2 : tables) :
  Re.findall pair_re eq1 ≡ₚ Re.findall pair_re eq2 →
  ∃ mapping st1' st2',
    pairs_loop (Re.findall pair_re eq1) ∅ st1 = Some (mapping, st1')
    ∧ pairs_loop (Re.findall pair_re eq2) ∅ st2 = Some (mapping, st2').
Proof.
  intros Hperm.
  destruct (pairs_loop_spec _ ∅ st1 (findall_int eq1)) as (m1 & st1' & H1 & _ & _ & Hm1).
  destruct (pairs_loop_spec _ ∅ st2 (findall_int eq2)) as (m2 & st2' & H2 & _ & _ & Hm2).
  exists m1, st1', st2'. split; [done|]. rewrite H2. do 2 f_equal.
  apply map_eq. intros var. rewrite Hm1, Hm2, (coeff_sum_perm var _ _ Hperm).
  destruct (decide (var ∈ (Re.findall pair_re eq1).*2)) as [Hin|Hnot].
  - rewrite decide_True; [done|]. by rewrite <-Hperm.
  - rewrite decide_False; [done|]. by rewrite <-Hperm.
Qed.

Lemma term_order_is_irrelevant_witness :
  ∃ mapping st1' st2',
    pairs_loop (Re.findall pair_re "1 a -2 b 3 a") ∅ empty_tables = Some (mapping, st1')
    ∧ pairs_loop (Re.findall pair_re "-2 b 3 a 1 a") ∅ sample_tables
      = Some (mapping, st2').
Proof.
  apply (term_order_is_irrelevant "1 a -2 b 3 a" "-2 b 3 a 1 a").
  assert (Re.findall pair_re "1 a -2 b 3 a" = [("1", "a"); ("-2", "b"); ("3", "a")]) as ->
    by (vm_compute; reflexivity).
  assert (Re.findall pair_re "-2 b 3 a 1 a" = [("-2", "b"); ("3", "a")] ++ [("1", "a")]) as ->
    by (vm_compute; reflexivity).
  apply Permutation_cons_append.
Defined.
